(** * Showdown: the arbiter of a two-program duel (src/showdown/game.py)

    A shallow embedding of [Contestant] (start-up, timed read, command
    interpretation, tell) and of the turn engine ([loop], [finish],
    [write_to_ui_queue], [game]), with the properties of the
    specification stated over it.

    Conventions.
    - A Python [str] is a list of Unicode code points ([str]); [bytes] is
      a list of [Byte.byte].
    - Python [int] is [Z].
    - An object attribute that may not have been assigned yet is an
      [option]; reading an unassigned one raises [AttributeError].
    - What the arbiter observes of a subprocess (spawn result, [poll()],
      the head of the line queue, whether a write to its stdin goes
      through) and of the file system (whether the log file opens) is an
      explicit argument.
    - Exceptions are carried by [result]; [print] output is returned as a
      list of messages.  Of logging, the opening of the log file is
      modelled, and the calls that write a record where the logged
      expression can raise.
    - The line reader thread, [kill] and [clean] are left out: they move
      bytes and end processes, and no counter or command depends on
      them. *)

From Stdlib Require Import ZArith NArith List Bool Lia.
From Stdlib.Strings Require Import String Ascii Byte.
From Stdlib Require Import DecimalString.
Import ListNotations.
Open Scope Z_scope.

(** ** Text and bytes *)

Module Text.

Definition str := list N.
Definition bytes := list byte.

(** A source literal, as code points (the literals of the source are ASCII). *)
Definition lit (s : string) : str :=
  map (fun c => N_of_ascii c) (list_ascii_of_string s).

Fixpoint str_eqb (s t : str) : bool :=
  match s, t with
  | [], [] => true
  | x :: s', y :: t' => N.eqb x y && str_eqb s' t'
  | _, _ => false
  end.

(** [" ".join(xs)] *)
Fixpoint join (sep : str) (xs : list str) : str :=
  match xs with
  | [] => []
  | [x] => x
  | x :: rest => x ++ sep ++ join sep rest
  end.

(** [str(n)] for a non-negative integer: its decimal digits. *)
Definition str_of_N (n : N) : str :=
  lit (NilEmpty.string_of_uint (N.to_uint n)).

(** Python's [str.isspace] for one code point, which is what
    [str.strip()] without argument removes. *)
Definition isspace (c : N) : bool :=
  ((9 <=? c) && (c <=? 13) || (28 <=? c) && (c <=? 32)
   || (c =? 133) || (c =? 160) || (c =? 5760)
   || (8192 <=? c) && (c <=? 8202)
   || (c =? 8232) || (c =? 8233) || (c =? 8239) || (c =? 8287)
   || (c =? 12288))%N.

Fixpoint lstrip (s : str) : str :=
  match s with
  | [] => []
  | c :: s' => if isspace c then lstrip s' else s
  end.

Definition rstrip (s : str) : str := rev (lstrip (rev s)).

Definition strip (s : str) : str := rstrip (lstrip s).

(** *** UTF-8 *)

Definition cont (b : N) : bool := ((128 <=? b) && (b <=? 191))%N.

Definition low6 (b : N) : N := N.land b 63.

(** [bytes.decode("utf-8")] in strict mode: [None] stands for
    [UnicodeDecodeError]. *)
Fixpoint decode_utf8 (bs : list N) : option str :=
  match bs with
  | [] => Some []
  | b0 :: r0 =>
    if (b0 <? 128)%N then option_map (cons b0) (decode_utf8 r0)
    else if ((194 <=? b0) && (b0 <=? 223))%N then
      match r0 with
      | b1 :: r1 =>
        if cont b1
        then option_map (cons (N.lor (N.shiftl (N.land b0 31) 6) (low6 b1)))
                        (decode_utf8 r1)
        else None
      | _ => None
      end
    else if ((224 <=? b0) && (b0 <=? 239))%N then
      match r0 with
      | b1 :: b2 :: r2 =>
        if cont b1 && cont b2
           && negb ((b0 =? 224) && (b1 <? 160))%N
           && negb ((b0 =? 237) && (160 <=? b1))%N
        then option_map
               (cons (N.lor (N.shiftl (N.land b0 15) 12)
                            (N.lor (N.shiftl (low6 b1) 6) (low6 b2))))
               (decode_utf8 r2)
        else None
      | _ => None
      end
    else if ((240 <=? b0) && (b0 <=? 244))%N then
      match r0 with
      | b1 :: b2 :: b3 :: r3 =>
        if cont b1 && cont b2 && cont b3
           && negb ((b0 =? 240) && (b1 <? 144))%N
           && negb ((b0 =? 244) && (144 <=? b1))%N
        then option_map
               (cons (N.lor (N.shiftl (N.land b0 7) 18)
                            (N.lor (N.shiftl (low6 b1) 12)
                                   (N.lor (N.shiftl (low6 b2) 6) (low6 b3)))))
               (decode_utf8 r3)
        else None
      | _ => None
      end
    else None
  end.

Definition decode (l : bytes) : option str :=
  decode_utf8 (map Byte.to_N l).

Definition byte_of (n : N) : byte :=
  match Byte.of_N n with Some b => b | None => x00 end.

(** [str.encode("utf-8")]: [None] stands for [UnicodeEncodeError]
    (a lone surrogate, or a value that is not a code point). *)
Definition encode_cp (c : N) : option (list N) :=
  if (c <? 128)%N then Some [c]
  else if (c <? 2048)%N then
    Some [N.lor 192 (N.shiftr c 6); N.lor 128 (low6 c)]
  else if (c <? 65536)%N then
    if ((55296 <=? c) && (c <=? 57343))%N then None
    else Some [N.lor 224 (N.shiftr c 12);
               N.lor 128 (low6 (N.shiftr c 6));
               N.lor 128 (low6 c)]
  else if (c <? 1114112)%N then
    Some [N.lor 240 (N.shiftr c 18);
          N.lor 128 (low6 (N.shiftr c 12));
          N.lor 128 (low6 (N.shiftr c 6));
          N.lor 128 (low6 c)]
  else None.

Fixpoint encode_utf8 (s : str) : option (list N) :=
  match s with
  | [] => Some []
  | c :: s' =>
    match encode_cp c, encode_utf8 s' with
    | Some l, Some r => Some (l ++ r)
    | _, _ => None
    end
  end.

Definition encode (s : str) : option bytes :=
  option_map (map byte_of) (encode_utf8 s).

End Text.
Import Text.

(** ** Exceptions *)

Inductive exn :=
| EOFError
| TimeoutError
| ValueError
| UnicodeDecodeError
| UnicodeEncodeError
| AttributeError
| BrokenPipeError
| OSError
| SystemExit (code : Z).

Inductive result (A : Type) : Type :=
| Ok (v : A)
| Raise (e : exn).
Arguments Ok {A} v.
Arguments Raise {A} e.

Definition bind {A B : Type} (m : result A) (k : A -> result B) : result B :=
  match m with
  | Ok v => k v
  | Raise e => Raise e
  end.

Notation "x <- m ;; k" := (bind m (fun x => k))
  (at level 61, m at next level, right associativity).
Notation "' p <- m ;; k" := (bind m (fun x => let p := x in k))
  (at level 61, p pattern, m at next level, right associativity).

(** Reading an attribute that may not have been assigned. *)
Definition getattr {A : Type} (field : option A) : result A :=
  match field with
  | Some v => Ok v
  | None => Raise AttributeError
  end.

(** ** Constants and commands *)

Definition STARTUP_TIME : Z := 10.
Definition TURN_TIME : Z := 1.
Definition TOTAL_TURNS : Z := 100.
Definition MAX_BULLETS : Z := 6.

Inductive Commands :=
| STAND
| SHOOT
| DODGE
| RELOAD
| SHOOT_NO_BULLET
| GAME_OVER.

Definition value (c : Commands) : str :=
  match c with
  | STAND => lit "stand"
  | SHOOT => lit "shoot"
  | DODGE => lit "dodge"
  | RELOAD => lit "reload"
  | SHOOT_NO_BULLET => lit "shoot_no_bullet"
  | GAME_OVER => lit "game_over"
  end.

Definition members : list Commands :=
  [STAND; SHOOT; DODGE; RELOAD; SHOOT_NO_BULLET; GAME_OVER].

Definition cmd_eqb (c d : Commands) : bool :=
  match c, d with
  | STAND, STAND | SHOOT, SHOOT | DODGE, DODGE | RELOAD, RELOAD
  | SHOOT_NO_BULLET, SHOOT_NO_BULLET | GAME_OVER, GAME_OVER => true
  | _, _ => false
  end.

(** [command in [c1, ..., cn]] *)
Definition cmd_in (c : Commands) (l : list Commands) : bool :=
  existsb (cmd_eqb c) l.

(** The enum's lookup by value, [Commands(v)]; [ValueError] when no
    member has that value. *)
Definition Commands_of (v : str) : result Commands :=
  match find (fun c => str_eqb (value c) v) members with
  | Some c => Ok c
  | None => Raise ValueError
  end.

(** ** What the arbiter observes of a subprocess *)

(** Outcome of [subprocess.Popen]. *)
Inductive SpawnObs :=
| PermissionDenied
| FileNotFound
| Spawned.

(** Outcome of one [read]: [poll()] already reports an exit status, or
    the queue stayed empty for the whole timeout, or the line reader had
    queued the line [l] (as [readline] returned it, newline included). *)
Inductive ReadObs :=
| Exited
| QueueEmpty
| QueueLine (l : bytes).

(** Outcome of one [ask]: [poll()] reports an exit status when
    [is_alive] is evaluated, or the process runs and [read] observes
    [r]. *)
Inductive AskObs :=
| NotRunning
| Running (r : ReadObs).

(** Outcome of the write to a subprocess's stdin in [tell]: the pipe
    takes the line, or the write raises [BrokenPipeError] (the
    subprocess is gone or has closed its stdin). *)
Inductive PipeObs :=
| PipeOpen
| PipeBroken.

(** Outcome of opening the log file in [setup_logging]: the handler is
    created, or [logging.FileHandler] raises an [OSError] (a name with
    a slash, a directory that cannot be written). *)
Inductive LogObs :=
| LogOpened
| LogFailed.

Definition running (o : AskObs) : bool :=
  match o with
  | NotRunning => false
  | Running _ => true
  end.

Definition read_obs (o : AskObs) : ReadObs :=
  match o with
  | NotRunning => Exited
  | Running r => r
  end.

(** ** Contestant *)

(** The process handle: the chunks written to the subprocess's stdin so
    far, oldest first. *)
Record Process := mkProcess { stdin : list bytes }.

(** The attributes of a [Contestant] object.  [call_args] and [exited]
    are assigned first by [__init__]; every other attribute is [None]
    until its assignment is reached.  [contestant_name] and
    [latest_command] can hold Python's [None], hence the inner option. *)
Record Contestant := mkContestant {
  call_args : list str;
  exited : bool;
  process : option Process;
  contestant_name : option (option str);
  bullets : option Z;
  num_dodges : option Z;
  latest_command : option (option Commands)
}.

Definition set_exited (self : Contestant) (v : bool) : Contestant :=
  mkContestant (call_args self) v (process self) (contestant_name self)
               (bullets self) (num_dodges self) (latest_command self).

Definition set_process (self : Contestant) (v : Process) : Contestant :=
  mkContestant (call_args self) (exited self) (Some v) (contestant_name self)
               (bullets self) (num_dodges self) (latest_command self).

Definition set_contestant_name (self : Contestant) (v : option str)
  : Contestant :=
  mkContestant (call_args self) (exited self) (process self) (Some v)
               (bullets self) (num_dodges self) (latest_command self).

Definition set_bullets (self : Contestant) (v : Z) : Contestant :=
  mkContestant (call_args self) (exited self) (process self)
               (contestant_name self) (Some v) (num_dodges self)
               (latest_command self).

Definition set_num_dodges (self : Contestant) (v : Z) : Contestant :=
  mkContestant (call_args self) (exited self) (process self)
               (contestant_name self) (bullets self) (Some v)
               (latest_command self).

Definition set_latest_command (self : Contestant) (v : option Commands)
  : Contestant :=
  mkContestant (call_args self) (exited self) (process self)
               (contestant_name self) (bullets self) (num_dodges self)
               (Some v).

(** The [name] property:
    [getattr(self, "contestant_name", " ".join(self.call_args))].
    The result is a Python value, a [str] or [None]. *)
Definition name (self : Contestant) : option str :=
  match contestant_name self with
  | Some v => v
  | None => Some (join (lit " ") (call_args self))
  end.

(** How an f-string renders a name. *)
Definition fmt (v : option str) : str :=
  match v with
  | Some s => s
  | None => lit "None"
  end.

(** [start]: the new object and what was printed. *)
Definition start (self : Contestant) (o : SpawnObs)
  : Contestant * list str :=
  match o with
  | PermissionDenied =>
    let self := set_exited self true in
    (self, [lit "Command '" ++ fmt (name self) ++ lit "': Permission denied"])
  | FileNotFound =>
    let self := set_exited self true in
    (self, [lit "Command '" ++ fmt (name self) ++ lit "' not found"])
  | Spawned => (set_process self (mkProcess []), [])
  end.

(** [read(timeout)]; the observation [o] is what happened within
    [timeout] seconds. *)
Definition read (self : Contestant) (timeout : Z) (o : ReadObs)
  : result str :=
  _ <- getattr (process self) ;;
  match o with
  | Exited => Raise EOFError
  | QueueEmpty => Raise TimeoutError
  | QueueLine line =>
    match decode line with
    | Some s => Ok (strip s)
    | None => Raise UnicodeDecodeError
    end
  end.

(** [read_name]: the returned value ([None] on the bare [return]s), the
    object and what was printed. *)
Definition read_name (self : Contestant) (o : ReadObs)
  : result (option str * Contestant * list str) :=
  match read self STARTUP_TIME o with
  | Raise EOFError =>
    let self := set_exited self true in
    Ok (None, self, [fmt (name self) ++ lit " exited"])
  | Raise TimeoutError =>
    let self := set_exited self true in
    Ok (None, self,
        [fmt (name self) ++ lit " took more than "
         ++ str_of_N (Z.to_N STARTUP_TIME)
         ++ lit " seconds to output its name"])
  | Raise e => Raise e
  | Ok nm =>
    match nm with
    | [] =>
      let out := [fmt (name self) ++ lit " didn't send its name"] in
      Ok (Some nm, set_exited self true, out)
    | _ => Ok (Some nm, self, [])
    end
  end.

(** [Contestant.__init__] *)
Definition init (args : list str) (so : SpawnObs) (ro : ReadObs)
  : result (Contestant * list str) :=
  let self := mkContestant args false None None None None None in
  let '(self, out1) := start self so in
  if exited self then Ok (self, out1)
  else
    '(nm, self, out2) <- read_name self ro ;;
    let self := set_contestant_name self nm in
    let self := set_bullets self 1 in
    let self := set_num_dodges self 0 in
    let self := set_latest_command self None in
    Ok (self, out1 ++ out2).

(** [is_alive]: [not self.exited and self.process.poll() is None];
    [polled_none] is the value of [self.process.poll() is None]. *)
Definition is_alive (self : Contestant) (polled_none : bool) : result bool :=
  if exited self then Ok false
  else _ <- getattr (process self) ;; Ok polled_none.

(** The check for a valid command in [ask], between the read and the
    state updates.  [Return c]: [ask] returns [c] at this point;
    [Valid c]: [c] is a command that [ask] goes on to interpret. *)
Inductive Checked :=
| Return (c : Commands)
| Valid (c : Commands).

Definition check_command (command : str) : result Checked :=
  match Commands_of (strip command) with
  | Raise ValueError => Ok (Return STAND)
  | Raise e => Raise e
  | Ok command =>
    if negb (cmd_in command [SHOOT; DODGE; RELOAD]) then Ok (Return STAND)
    else Ok (Valid command)
  end.

(** [ask]: the resolved command and the updated object.  The warning
    of the first branch formats [self.process.returncode]. *)
Definition ask (self : Contestant) (o : AskObs)
  : result (Commands * Contestant) :=
  alive <- is_alive self (running o) ;;
  if negb alive then
    _ <- getattr (process self) ;; Ok (STAND, self)
  else
    match read self TURN_TIME (read_obs o) with
    | Raise EOFError => Ok (STAND, self)
    | Raise TimeoutError => Ok (GAME_OVER, self)
    | Raise e => Raise e
    | Ok command =>
      checked <- check_command command ;;
      match checked with
      | Return c => Ok (c, self)
      | Valid command =>
        shot <- (if cmd_eqb command SHOOT then
                   n <- getattr (bullets self) ;;
                   if negb (n =? 0) then Ok (Some (set_bullets self (n - 1)))
                   else Ok None
                 else Ok (Some self)) ;;
        match shot with
        | None => Ok (SHOOT_NO_BULLET, self)
        | Some self =>
          self <- (if cmd_eqb command RELOAD then
                     n <- getattr (bullets self) ;;
                     if n =? MAX_BULLETS then Ok self
                     else Ok (set_bullets self (n + 1))
                   else Ok self) ;;
          self <- (if cmd_eqb command DODGE then
                     n <- getattr (num_dodges self) ;;
                     Ok (set_num_dodges self (n + 1))
                   else Ok self) ;;
          Ok (command, self)
        end
      end
    end.

(** [tell]: the chunk [command.value.encode("utf-8") + b"\n"] is
    written to the subprocess's stdin: appended to what it received
    when the pipe takes it, [BrokenPipeError] when it does not. *)
Definition tell (self : Contestant) (command : Commands) (w : PipeObs)
  : result Contestant :=
  p <- getattr (process self) ;;
  match encode (value command) with
  | Some chunk =>
    match w with
    | PipeOpen =>
      Ok (set_process self (mkProcess (stdin p ++ [chunk ++ [x0a]])))
    | PipeBroken => Raise BrokenPipeError
    end
  | None => Raise UnicodeEncodeError
  end.

(** ** Match state *)

(** The keys ["a"] and ["b"] of the state dictionary.  [state["winner"]]
    holds one of the two contestant objects themselves, so it is kept as
    the key of the object it aliases. *)
Inductive Key := KA | KB.

Definition key_eqb (k l : Key) : bool :=
  match k, l with
  | KA, KA | KB, KB => true
  | _, _ => false
  end.

(** The state dictionary; the keys ["winner"] and ["description"] are
    absent ([None]) until assigned. *)
Record State := mkState {
  num_turn : Z;
  state_a : Contestant;
  state_b : Contestant;
  winner : option Key;
  description : option str
}.

(** [state[key]] *)
Definition contestant (state : State) (k : Key) : Contestant :=
  match k with
  | KA => state_a state
  | KB => state_b state
  end.

Definition set_num_turn (state : State) (v : Z) : State :=
  mkState v (state_a state) (state_b state) (winner state)
          (description state).

Definition set_a (state : State) (v : Contestant) : State :=
  mkState (num_turn state) v (state_b state) (winner state)
          (description state).

Definition set_b (state : State) (v : Contestant) : State :=
  mkState (num_turn state) (state_a state) v (winner state)
          (description state).

Definition set_winner (state : State) (v : Key) : State :=
  mkState (num_turn state) (state_a state) (state_b state) (Some v)
          (description state).

Definition set_description (state : State) (v : str) : State :=
  mkState (num_turn state) (state_a state) (state_b state) (winner state)
          (Some v).

(** [list.remove] on a list of keys: the first occurrence goes. *)
Fixpoint remove_key (k : Key) (l : list Key) : list Key :=
  match l with
  | [] => []
  | x :: r => if key_eqb x k then r else x :: remove_key k r
  end.

Definition unprotected : list Commands := [SHOOT_NO_BULLET; RELOAD; STAND].

(** [loop]: one turn.  [oa] and [ob] are what the two [ask] calls
    observe, [wa] and [wb] what the two [tell] calls observe when the
    turn gets to them.  The result is the returned flag and the
    mutated state. *)
Definition loop (state : State) (oa ob : AskObs) (wa wb : PipeObs)
  : result (bool * State) :=
  '(command_a, ca) <- ask (state_a state) oa ;;
  let state := set_a state (set_latest_command ca (Some command_a)) in
  '(command_b, cb) <- ask (state_b state) ob ;;
  let state := set_b state (set_latest_command cb (Some command_b)) in
  if cmd_in GAME_OVER [command_a; command_b] then
    let winner := [KA; KB] in
    let winner :=
      if cmd_eqb command_a GAME_OVER then remove_key KA winner else winner in
    let winner :=
      if cmd_eqb command_b GAME_OVER then remove_key KB winner else winner in
    match hd_error winner with
    | Some winner_key => Ok (false, set_winner state winner_key)
    | None => Ok (false, state)
    end
  else if cmd_eqb command_a SHOOT && cmd_in command_b unprotected then
    Ok (false, set_winner state KA)
  else if cmd_eqb command_b SHOOT && cmd_in command_a unprotected then
    Ok (false, set_winner state KB)
  else
    ca <- tell (state_a state) command_b wa ;;
    let state := set_a state ca in
    cb <- tell (state_b state) command_a wb ;;
    let state := set_b state cb in
    let state := set_num_turn state (num_turn state + 1) in
    if num_turn state >=? TOTAL_TURNS then Ok (false, state)
    else Ok (true, state).

(** ** Snapshots for the UI queue *)

Record View := mkView {
  view_name : option str;
  view_bullets : Z;
  view_command : str;
  view_num_dodges : Z
}.

(** The dictionary put on the queue; ["winner_key"] is present only
    once the state has a winner. *)
Record Snapshot := mkSnapshot {
  snap_num_turn : Z;
  snap_description : str;
  snap_a : View;
  snap_b : View;
  snap_winner_key : option Key
}.

Definition view (c : Contestant) : result View :=
  n <- getattr (bullets c) ;;
  latest <- getattr (latest_command c) ;;
  command <- getattr latest ;;
  d <- getattr (num_dodges c) ;;
  Ok (mkView (name c) n (value command) d).

(** [write_to_ui_queue]: the queue with the new snapshot at its end. *)
Definition write_to_ui_queue (state : State) (state_queue : list Snapshot)
  : result (list Snapshot) :=
  let description :=
    match description state with
    | Some d => d
    | None => lit "un truc au pif"
    end in
  va <- view (state_a state) ;;
  vb <- view (state_b state) ;;
  Ok (state_queue
      ++ [mkSnapshot (num_turn state) description va vb (winner state)]).

(** ** Outcome *)

(** [finish]; [coin] is what [random.choice([state["a"], state["b"]])]
    returns. *)
Definition finish (state : State) (coin : Key) : result State :=
  match winner state with
  | None =>
    da <- getattr (num_dodges (state_a state)) ;;
    db <- getattr (num_dodges (state_b state)) ;;
    let diff_dodges := da - db in
    if negb (diff_dodges =? 0) then
      let w := if diff_dodges <? 0 then Some KA
               else if diff_dodges >? 0 then Some KB
               else None in
      w <- getattr w ;;
      let d := fmt (name (contestant state w))
               ++ lit " wins by having dodged "
               ++ str_of_N (Z.to_N (Z.abs diff_dodges))
               ++ lit " times less" in
      Ok (set_description (set_winner state w) d)
    else
      let w := coin in
      let d := lit "Toss a coin: " ++ fmt (name (contestant state w))
               ++ lit " wins." in
      Ok (set_description (set_winner state w) d)
  | Some w =>
    let d := fmt (name (contestant state w)) ++ lit " wins" in
    Ok (set_description (set_winner state w) d)
  end.

(** ** The match *)

(** The [while True] of [game], from a state that [setup] returned.
    [obs n] is what the two [ask] calls of the [n]-th iteration from
    here observe, [pipes n] what its two [tell] calls observe; [None]
    means the fuel ran out before the [break]. *)
Fixpoint play (fuel : nat) (state : State) (obs : nat -> AskObs * AskObs)
    (pipes : nat -> PipeObs * PipeObs)
    (coin : Key) (state_queue : list Snapshot)
  : option (result (list Snapshot * State)) :=
  match fuel with
  | O => None
  | S fuel' =>
    match loop state (fst (obs O)) (snd (obs O))
               (fst (pipes O)) (snd (pipes O)) with
    | Raise e => Some (Raise e)
    | Ok (cont, state) =>
      match (if negb cont then finish state coin else Ok state) with
      | Raise e => Some (Raise e)
      | Ok state =>
        match write_to_ui_queue state state_queue with
        | Raise e => Some (Raise e)
        | Ok state_queue =>
          if negb cont then Some (Ok (state_queue, state))
          else play fuel' state (fun n => obs (S n))
                    (fun n => pipes (S n)) coin state_queue
        end
      end
    end
  end.

(** What [setup] observes of one contestant: the spawn, the start-up
    read, and [poll() is None] when [setup] checks liveness. *)
Record StartObs := mkStartObs {
  spawn : SpawnObs;
  first_line : ReadObs;
  still_running : bool
}.

(** The name of the log file that [setup_logging] opens. *)
Definition log_file (name_a name_b : option str) : str :=
  fmt name_a ++ lit "-vs-" ++ fmt name_b ++ lit ".log".

(** [setup_logging]: the file opened for the log, or the [OSError] of
    [logging.FileHandler] (its subclasses are not told apart). *)
Definition setup_logging (name_a name_b : option str) (log : LogObs)
  : result str :=
  match log with
  | LogOpened => Ok (log_file name_a name_b)
  | LogFailed => Raise OSError
  end.

(** [setup], after the command line has been split into the two
    argument vectors: what was printed, and the state or the exception
    ([sys.exit(1)] is [SystemExit 1]). *)
Definition setup (call_args_a call_args_b : list str) (oa ob : StartObs)
    (log : LogObs)
  : list str * result State :=
  match init call_args_a (spawn oa) (first_line oa) with
  | Raise e => ([], Raise e)
  | Ok (a, out_a) =>
    match init call_args_b (spawn ob) (first_line ob) with
    | Raise e => (out_a, Raise e)
    | Ok (b, out_b) =>
      (out_a ++ out_b,
       alive_a <- is_alive a (still_running oa) ;;
       dead <- (if negb alive_a then Ok true
                else alive_b <- is_alive b (still_running ob) ;;
                     Ok (negb alive_b)) ;;
       if dead then Raise (SystemExit 1)
       else
         _ <- setup_logging (name a) (name b) log ;;
         Ok (mkState 0 a b None None))
    end
  end.

(** [game]: [setup], then the loop, returning the queue's content. *)
Definition game (fuel : nat) (call_args_a call_args_b : list str)
    (oa ob : StartObs) (log : LogObs) (obs : nat -> AskObs * AskObs)
    (pipes : nat -> PipeObs * PipeObs) (coin : Key)
  : option (result (list Snapshot * State)) :=
  match snd (setup call_args_a call_args_b oa ob log) with
  | Raise e => Some (Raise e)
  | Ok state => play fuel state obs pipes coin []
  end.

(** ** Notions used by the statements *)

(** A turn is decisive when [loop] returns before the exchange of
    commands: a forfeit, or a shot at an unprotected opponent. *)
Definition decisive (command_a command_b : Commands) : bool :=
  cmd_in GAME_OVER [command_a; command_b]
  || cmd_eqb command_a SHOOT && cmd_in command_b unprotected
  || cmd_eqb command_b SHOOT && cmd_in command_a unprotected.

(** The winner that a decisive turn assigns, if any: the other side of
    a single forfeit, else the side whose shot lands, A's before B's. *)
Definition verdict (command_a command_b : Commands) : option Key :=
  if cmd_eqb command_a GAME_OVER then
    if cmd_eqb command_b GAME_OVER then None else Some KB
  else if cmd_eqb command_b GAME_OVER then Some KA
  else if cmd_eqb command_a SHOOT && cmd_in command_b unprotected then Some KA
  else if cmd_eqb command_b SHOOT && cmd_in command_a unprotected then Some KB
  else None.

(** The same, read off the two command tokens of a snapshot. *)
Definition snap_decisive (s : Snapshot) : bool :=
  match Commands_of (view_command (snap_a s)),
        Commands_of (view_command (snap_b s)) with
  | Ok command_a, Ok command_b => decisive command_a command_b
  | _, _ => false
  end.

(** The command that the check leaves [ask] with. *)
Definition decoded (k : Checked) : Commands :=
  match k with
  | Return c => c
  | Valid c => c
  end.

(** The last chunk that [tell] wrote to the subprocess. *)
Definition written (self : Contestant) : bytes :=
  match process self with
  | Some p => last (stdin p) []
  | None => []
  end.

(** What can happen to a contestant object during a match: it is
    constructed over a spawned process, and then [loop] queries it,
    records its command and tells it the opponent's. *)
Inductive reachable : Contestant -> Prop :=
| reach_init args ro c out :
    init args Spawned ro = Ok (c, out) -> reachable c
| reach_ask c o command c' :
    reachable c -> ask c o = Ok (command, c') -> reachable c'
| reach_latest c command :
    reachable c -> reachable (set_latest_command c (Some command))
| reach_tell c command w c' :
    reachable c -> tell c command w = Ok c' -> reachable c'.

(** An object whose process handle and counters are assigned, as
    [__init__] leaves it after a successful spawn. *)
Definition ready (c : Contestant) : Prop :=
  exists p n d,
    process c = Some p /\ bullets c = Some n /\ num_dodges c = Some d.

(** An observation whose line, if it has one, is valid UTF-8. *)
Definition decodable (o : AskObs) : Prop :=
  forall l, o = Running (QueueLine l) -> decode l <> None.

(** The text of a snapshot taken before [finish] ran. *)
Definition placeholder : str := lit "un truc au pif".

(** *** Concrete matches *)

(** The line a subprocess prints for the text [s]. *)
Definition line (s : string) : bytes := list_byte_of_string s ++ [x0a].

Definition says (s : string) : AskObs := Running (QueueLine (line s)).

Definition good_start (nm : string) : StartObs :=
  mkStartObs Spawned (QueueLine (line nm)) true.

(** A contestant fresh from [__init__], named by its first line. *)
Definition fresh (prog nm : string) : Contestant :=
  mkContestant [lit prog] false (Some (mkProcess [])) (Some (Some (lit nm)))
               (Some 1) (Some 0) (Some None).

(** The state [setup] returns for [./a] (named alice) and [./b] (bob). *)
Definition state0 : State :=
  mkState 0 (fresh "./a" "alice") (fresh "./b" "bob") None None.


(** The pair after a full match in which alice dodged twice and bob
    five times. *)
Definition state100 : State :=
  mkState 100 (set_num_dodges (fresh "./a" "alice") 2)
          (set_num_dodges (fresh "./b" "bob") 5) None None.

(** Every delivery goes through. *)
Definition delivered (n : nat) : PipeObs * PipeObs := (PipeOpen, PipeOpen).


(** Fields that no query and no delivery of a command counts in:
    everything but the two counters. *)
Definition same_but_counters (self self' : Contestant) : Prop :=
  call_args self' = call_args self
  /\ exited self' = exited self
  /\ process self' = process self
  /\ contestant_name self' = contestant_name self
  /\ latest_command self' = latest_command self.

(** A match of two turns: alice dodges while bob reloads, then alice
    shoots while bob stands. *)
Definition two_turns (n : nat) : AskObs * AskObs :=
  match n with
  | O => (says "dodge", says "reload")
  | _ => (says "shoot", says "stand")
  end.

(** ** The rest of the arbiter *)

(** [enqueue_output]: the line reader.  [out] is everything the
    subprocess writes to its stdout before it closes it; [readline]
    cuts it after each newline, the last piece being what follows the
    last newline, if anything; every piece is put on the queue, in
    order. *)
Definition is_newline (b : byte) : bool := Byte.eqb b x0a.

Fixpoint readlines (cur : bytes) (out : bytes) : list bytes :=
  match out with
  | [] => match cur with [] => [] | _ => [rev cur] end
  | b :: rest =>
    if is_newline b then rev (b :: cur) :: readlines [] rest
    else readlines (b :: cur) rest
  end.

Definition enqueue_output (out : bytes) (queue : list bytes) : list bytes :=
  queue ++ readlines [] out.

(** [list.index(x)]: the position of the first element equal to [x],
    [ValueError] when there is none. *)
Fixpoint index (x : str) (l : list str) : result nat :=
  match l with
  | [] => Raise ValueError
  | y :: rest =>
    if str_eqb y x then Ok O else n <- index x rest ;; Ok (S n)
  end.

(** [usage]: the message printed, before [sys.exit(1)]. *)
Definition usage (argv0 : str) : list str :=
  [lit "Usage: " ++ argv0 ++ lit " program_a args -vs- program_b args"].

(** The head of [setup]: [args] is [sys.argv[1:]], [argv0] is
    [sys.argv[0]]; the result is what was printed and the two argument
    vectors [args[:index]] and [args[index + 1:]]. *)
Definition split_args (argv0 : str) (args : list str)
  : list str * result (list str * list str) :=
  match index (lit "-vs-") args with
  | Raise ValueError => (usage argv0, Raise (SystemExit 1))
  | Raise e => ([], Raise e)
  | Ok i => ([], Ok (firstn i args, skipn (i + 1) args))
  end.

(** *** Notions used by the further statements *)

(** The line that [tell] writes for the command token [v]. *)
Definition token_line (v : str) : bytes :=
  match encode v with
  | Some chunk => chunk ++ [x0a]
  | None => []
  end.

Definition non_decisive (s : Snapshot) : bool := negb (snap_decisive s).

(** The iterations of the loop of [game] as a relation: from [state],
    the snapshots put on the queue and the state at the [break]. *)
Inductive plays (coin : Key) : State -> list Snapshot -> State -> Prop :=
| plays_break state oa ob wa wb state1 state2 s :
    loop state oa ob wa wb = Ok (false, state1) ->
    finish state1 coin = Ok state2 ->
    write_to_ui_queue state2 [] = Ok [s] ->
    plays coin state [s] state2
| plays_continue state oa ob wa wb state1 s rest state' :
    loop state oa ob wa wb = Ok (true, state1) ->
    write_to_ui_queue state1 [] = Ok [s] ->
    plays coin state1 rest state' ->
    plays coin state (s :: rest) state'.

(** A start-up that lets a contestant through [setup]: the program is
    spawned, its first line decodes to a name that is not blank, and it
    is still running when [setup] checks. *)
Definition starts_well (o : StartObs) (nm : str) : Prop :=
  exists l s,
    o = mkStartObs Spawned (QueueLine l) true
    /\ decode l = Some s /\ strip s = nm /\ nm <> [].

(** The object [__init__] builds for such a start-up. *)
Definition started (args : list str) (nm : str) : Contestant :=
  mkContestant args false (Some (mkProcess [])) (Some (Some nm))
               (Some 1) (Some 0) (Some None).

(** Counters within their bounds: ammunition between 0 and
    MAX_BULLETS, dodges between 0 and [limit]. *)
Definition counters_within (limit : Z) (c : Contestant) : Prop :=
  exists n d,
    bullets c = Some n /\ num_dodges c = Some d
    /\ 0 <= n <= MAX_BULLETS /\ 0 <= d <= limit.

Definition view_within (limit : Z) (v : View) : Prop :=
  0 <= view_bullets v <= MAX_BULLETS /\ 0 <= view_num_dodges v <= limit.

(** * Properties *)

(** ** Text *)

Example strip_shoot :
  option_map strip (decode [x20; x73; x68; x6f; x6f; x74; x0d; x0a])
  = Some (lit "shoot").
Proof. reflexivity. Qed.

Example decode_two_bytes : decode [xc3; xa9] = Some [233%N].
Proof. reflexivity. Qed.

Example decode_rejects_ff : decode [xff; x0a] = None.
Proof. reflexivity. Qed.

Example encode_decode_snowman :
  encode [9731%N] = Some [xe2; x98; x83]
  /\ decode [xe2; x98; x83] = Some [9731%N].
Proof. split; reflexivity. Qed.

Example str_of_N_42 : str_of_N 42 = lit "42".
Proof. reflexivity. Qed.

Lemma str_eqb_eq (s t : str) : str_eqb s t = true <-> s = t.
Proof.
  revert t; induction s as [|x s IH]; intros [|y t]; simpl;
    try (split; congruence).
  rewrite andb_true_iff, N.eqb_eq, IH. split.
  - intros [-> ->]; reflexivity.
  - intros H; injection H as -> ->; auto.
Qed.

Lemma cmd_eqb_eq (c d : Commands) : cmd_eqb c d = true <-> c = d.
Proof. destruct c, d; simpl; split; congruence. Qed.

(** ** The enum *)

Lemma Commands_of_value (c : Commands) : Commands_of (value c) = Ok c.
Proof. destruct c; reflexivity. Qed.

Lemma Commands_of_sound (v : str) (c : Commands) :
  Commands_of v = Ok c -> v = value c.
Proof.
  unfold Commands_of.
  destruct (find _ members) as [c0|] eqn:F; [|discriminate].
  intros [= ->]. apply find_some in F. destruct F as [_ F].
  apply str_eqb_eq in F. congruence.
Qed.

Lemma Commands_of_raises (v : str) (e : exn) :
  Commands_of v = Raise e -> e = ValueError.
Proof.
  unfold Commands_of. destruct (find _ members); congruence.
Qed.

Lemma strip_value (c : Commands) : strip (value c) = value c.
Proof. destruct c; reflexivity. Qed.

(** ** The check for a valid command *)

Lemma check_command_cases (s : str) :
  check_command s = Ok (Return STAND)
  \/ (exists c, check_command s = Ok (Valid c)
                /\ strip s = value c
                /\ (c = SHOOT \/ c = DODGE \/ c = RELOAD)).
Proof.
  unfold check_command.
  destruct (Commands_of (strip s)) as [c|e] eqn:E.
  - apply Commands_of_sound in E.
    destruct c; simpl; auto; right; eauto 6.
  - apply Commands_of_raises in E. subst e. auto.
Qed.

Lemma check_command_value (c : Commands) :
  check_command (value c)
  = Ok (if cmd_in c [SHOOT; DODGE; RELOAD] then Valid c else Return STAND).
Proof. destruct c; reflexivity. Qed.

(** ** [ask] *)

Ltac inv H := inversion H; subst; clear H.

(** [ask] on a decodable line, for an object whose process is set and
    which is not marked exited: the check, then the state update. *)
Lemma ask_line (self : Contestant) (p : Process) (l : bytes) (s : str) :
  exited self = false -> process self = Some p -> decode l = Some s ->
  ask self (Running (QueueLine l))
  = (checked <- check_command (strip s) ;;
     match checked with
     | Return c => Ok (c, self)
     | Valid command =>
       match command with
       | SHOOT =>
         n <- getattr (bullets self) ;;
         if n =? 0 then Ok (SHOOT_NO_BULLET, self)
         else Ok (SHOOT, set_bullets self (n - 1))
       | RELOAD =>
         n <- getattr (bullets self) ;;
         if n =? MAX_BULLETS then Ok (RELOAD, self)
         else Ok (RELOAD, set_bullets self (n + 1))
       | DODGE =>
         n <- getattr (num_dodges self) ;;
         Ok (DODGE, set_num_dodges self (n + 1))
       | c => Ok (c, self)
       end
     end).
Proof.
  intros He Hp Hd. unfold ask, is_alive, read. rewrite He, Hp. simpl.
  rewrite Hd. destruct (check_command (strip s)) as [[c|c]|e]; simpl; auto.
  destruct c; simpl; auto.
  - destruct (bullets self) as [n|]; simpl; auto.
    destruct (n =? 0); reflexivity.
  - destruct (num_dodges self) as [n|]; simpl; auto.
  - destruct (bullets self) as [n|]; simpl; auto.
    destruct (n =? MAX_BULLETS); reflexivity.
Qed.

(** What a returning [ask] did: nothing for [STAND], [GAME_OVER] and
    [SHOOT_NO_BULLET]; one bullet less for [SHOOT]; one more for
    [RELOAD] unless full; one dodge more for [DODGE]. *)
Lemma ask_effect (self self' : Contestant) (o : AskObs) (c : Commands) :
  ask self o = Ok (c, self') ->
  process self <> None /\
  match c with
  | STAND | GAME_OVER => self' = self
  | SHOOT_NO_BULLET => self' = self /\ bullets self = Some 0
  | SHOOT =>
    exists n, bullets self = Some n /\ n <> 0 /\ self' = set_bullets self (n - 1)
  | RELOAD =>
    exists n, bullets self = Some n /\
      (n = MAX_BULLETS /\ self' = self
       \/ n <> MAX_BULLETS /\ self' = set_bullets self (n + 1))
  | DODGE =>
    exists d, num_dodges self = Some d /\ self' = set_num_dodges self (d + 1)
  end.
Proof.
  unfold ask, is_alive.
  destruct (process self) as [p|] eqn:Hp.
  2:{ destruct (exited self); simpl; discriminate. }
  intros H. split; [discriminate|].
  destruct (exited self) eqn:He; simpl in H.
  { inv H. reflexivity. }
  destruct o as [|r]; simpl in H.
  { inv H. reflexivity. }
  unfold read in H. rewrite Hp in H. simpl in H.
  destruct r as [| |l]; try (inv H; reflexivity).
  destruct (decode l) as [s|]; [|discriminate].
  destruct (check_command_cases (strip s)) as [E|(k & E & _ & Hk)];
    rewrite E in H; simpl in H.
  { inv H. reflexivity. }
  destruct Hk as [-> | [-> | ->]]; simpl in H.
  - destruct (bullets self) as [n|]; [|discriminate]. simpl in H.
    destruct (n =? 0) eqn:En; simpl in H; inv H.
    + apply Z.eqb_eq in En. subst. auto.
    + apply Z.eqb_neq in En. eauto.
  - destruct (num_dodges self) as [d|]; [|discriminate]. simpl in H.
    inv H. eauto.
  - destruct (bullets self) as [n|]; [|discriminate]. simpl in H.
    destruct (n =? MAX_BULLETS) eqn:En; simpl in H; inv H.
    + apply Z.eqb_eq in En. eauto.
    + apply Z.eqb_neq in En. eauto 6.
Qed.

(** [ask] returns a command whenever the line, if there is one, can be
    decoded and the object is one that [__init__] completed. *)
Lemma ask_returns (self : Contestant) (p : Process) (n d : Z) (o : AskObs) :
  process self = Some p -> bullets self = Some n -> num_dodges self = Some d ->
  (forall l, o = Running (QueueLine l) -> exited self = false ->
             decode l <> None) ->
  exists c self', ask self o = Ok (c, self').
Proof.
  intros Hp Hb Hd Hl.
  destruct (exited self) eqn:He.
  { unfold ask, is_alive. rewrite He, Hp. simpl. eauto. }
  destruct o as [|[| |l]].
  - unfold ask, is_alive. rewrite He, Hp. simpl. eauto.
  - unfold ask, is_alive, read. rewrite He, Hp. simpl. eauto.
  - unfold ask, is_alive, read. rewrite He, Hp. simpl. eauto.
  - destruct (decode l) as [s|] eqn:E.
    2:{ exfalso. apply (Hl l); auto. }
    rewrite (ask_line self p l s He Hp E).
    destruct (check_command_cases (strip s)) as [K|(k & K & _ & Hk)];
      rewrite K; simpl; eauto.
    destruct Hk as [-> | [-> | ->]]; rewrite ?Hb, ?Hd; simpl; eauto.
    + destruct (n =? 0); eauto.
    + destruct (n =? MAX_BULLETS); eauto.
Qed.

(** ** Claim C2 *)

(** C2.  For every contestant in play and every line that reads as one
    of the four valid tokens, [ask] has exactly these effects: shoot
    with ammunition leaves one bullet less and resolves to SHOOT; shoot
    without ammunition changes nothing and resolves to SHOOT_NO_BULLET;
    reload at MAX_BULLETS changes nothing, below it leaves one bullet
    more, and resolves to RELOAD; dodge leaves the dodge count one
    higher and resolves to DODGE; stand changes nothing and resolves to
    STAND.  Where a counter changes, the other counter and every other
    attribute keep their values. *)
Theorem ask_interprets_valid_token
    (self : Contestant) (p : Process) (n d : Z) (l : bytes) (s : str)
    (c : Commands) :
  exited self = false -> process self = Some p ->
  bullets self = Some n -> num_dodges self = Some d ->
  decode l = Some s -> strip s = value c ->
  let r := ask self (Running (QueueLine l)) in
  (c = SHOOT -> 0 < n ->
   exists self',
     r = Ok (SHOOT, self')
     /\ bullets self' = Some (n - 1) /\ num_dodges self' = Some d
     /\ same_but_counters self self')
  /\ (c = SHOOT -> n = 0 -> r = Ok (SHOOT_NO_BULLET, self))
  /\ (c = RELOAD -> n = MAX_BULLETS -> r = Ok (RELOAD, self))
  /\ (c = RELOAD -> n < MAX_BULLETS ->
      exists self',
        r = Ok (RELOAD, self')
        /\ bullets self' = Some (n + 1) /\ num_dodges self' = Some d
        /\ same_but_counters self self')
  /\ (c = DODGE ->
      exists self',
        r = Ok (DODGE, self')
        /\ bullets self' = Some n /\ num_dodges self' = Some (d + 1)
        /\ same_but_counters self self')
  /\ (c = STAND -> r = Ok (STAND, self)).
Proof.
  intros He Hp Hb Hd Hl Hs r. subst r.
  rewrite (ask_line self p l s He Hp Hl), Hs, check_command_value.
  unfold same_but_counters.
  repeat split; intros ->; simpl; rewrite ?Hb, ?Hd; simpl; auto.
  - intros Hn. destruct (Z.eqb_spec n 0); [lia|].
    eexists. split; [reflexivity|]. simpl. rewrite Hd. repeat split.
  - intros ->. reflexivity.
  - intros ->. reflexivity.
  - intros Hn. destruct (Z.eqb_spec n MAX_BULLETS); [lia|].
    eexists. split; [reflexivity|]. simpl. rewrite Hd. repeat split.
  - eexists. split; [reflexivity|]. simpl. rewrite Hb. repeat split.
Qed.

Lemma ask_interprets_valid_token_witness :
  exists self',
    ask (fresh "./a" "alice") (says "shoot") = Ok (SHOOT, self')
    /\ bullets self' = Some 0 /\ num_dodges self' = Some 0
    /\ same_but_counters (fresh "./a" "alice") self'.
Proof.
  exact (proj1 (ask_interprets_valid_token
                  (fresh "./a" "alice") (mkProcess []) 1 0
                  (line "shoot") (lit "shoot" ++ [10%N]) SHOOT
                  eq_refl eq_refl eq_refl eq_refl eq_refl eq_refl)
               eq_refl eq_refl).
Defined.

(** ** Start-up *)

(** After a successful spawn [__init__] always reaches the assignments
    of the counters, whatever the start-up read gave. *)
Lemma init_spawned (args : list str) (ro : ReadObs) (c : Contestant)
    (out : list str) :
  init args Spawned ro = Ok (c, out) ->
  call_args c = args
  /\ process c = Some (mkProcess [])
  /\ bullets c = Some 1 /\ num_dodges c = Some 0
  /\ latest_command c = Some None.
Proof.
  unfold init. simpl. unfold read_name, read. simpl.
  destruct ro as [| |l]; simpl.
  - intros H; inv H. simpl. auto.
  - intros H; inv H. simpl. auto.
  - destruct (decode l) as [s|]; [|discriminate].
    destruct (strip s); simpl; intros H; inv H; simpl; auto.
Qed.

(** A failed spawn leaves the object with its first two attributes. *)
Lemma init_not_spawned (args : list str) (so : SpawnObs) (ro : ReadObs) :
  so <> Spawned ->
  exists out,
    init args so ro
    = Ok (mkContestant args true None None None None None, out).
Proof.
  destruct so; try congruence; intros _; unfold init; simpl; eauto.
Qed.

(** ** [tell] *)

Lemma tell_ok (self : Contestant) (p : Process) (c : Commands) :
  process self = Some p ->
  exists chunk,
    encode (value c) = Some chunk
    /\ decode (chunk ++ [x0a]) = Some (value c ++ [10%N])
    /\ tell self c PipeOpen
       = Ok (set_process self (mkProcess (stdin p ++ [chunk ++ [x0a]]))).
Proof.
  intros Hp. unfold tell. rewrite Hp. simpl.
  destruct c; (eexists; split; [reflexivity|split; reflexivity]).
Qed.

(** A broken pipe makes [tell] raise. *)
Lemma tell_broken (self : Contestant) (p : Process) (c : Commands) :
  process self = Some p -> tell self c PipeBroken = Raise BrokenPipeError.
Proof.
  intros Hp. unfold tell. rewrite Hp. simpl. destruct c; reflexivity.
Qed.

Lemma tell_inv (self self' : Contestant) (c : Commands) (w : PipeObs) :
  tell self c w = Ok self' ->
  exists p chunk,
    process self = Some p
    /\ encode (value c) = Some chunk
    /\ self' = set_process self (mkProcess (stdin p ++ [chunk ++ [x0a]])).
Proof.
  unfold tell. destruct (process self) as [p|]; [|discriminate]. simpl.
  destruct (encode (value c)) as [chunk|]; [|discriminate].
  destruct w; [|discriminate].
  intros H; inv H. eauto.
Qed.

(** ** Claim C3 *)

(** C3.  From the initial state (one bullet, no dodge) and through any
    sequence of queries, recorded commands and deliveries, a
    contestant's ammunition stays within 0 and MAX_BULLETS = 6 and its
    dodge count stays non-negative; and any further query keeps the
    ammunition in range, does not lower it when it resolves to RELOAD,
    does not raise it when it resolves to SHOOT, and never lowers the
    dodge count. *)
Theorem ammunition_and_dodges_invariant (c : Contestant) :
  reachable c ->
  (exists n d,
      bullets c = Some n /\ num_dodges c = Some d
      /\ 0 <= n <= 6 /\ MAX_BULLETS = 6 /\ 0 <= d)
  /\ (forall o command c',
         ask c o = Ok (command, c') ->
         exists n d n' d',
           bullets c = Some n /\ num_dodges c = Some d
           /\ bullets c' = Some n' /\ num_dodges c' = Some d'
           /\ 0 <= n' <= MAX_BULLETS
           /\ (command = RELOAD -> n <= n')
           /\ (command = SHOOT -> n' <= n)
           /\ d <= d').
Proof.
  intros R.
  assert (I : exists n d,
             bullets c = Some n /\ num_dodges c = Some d
             /\ 0 <= n <= 6 /\ 0 <= d).
  { induction R as [args ro c out Hi | c o cmd c' R IH Ha
                    | c cmd R IH | c cmd w c' R IH Ht].
    - apply init_spawned in Hi. destruct Hi as (_ & _ & Hb & Hd & _).
      exists 1, 0. repeat split; auto; lia.
    - destruct IH as (n & d & Hb & Hd & Hn & H0).
      apply ask_effect in Ha. destruct Ha as [_ Ha].
      destruct cmd.
      + subst c'. eauto 8.
      + destruct Ha as (m & Hm & Hnz & ->). simpl.
        assert (m = n) by congruence. subst m.
        exists (n - 1), d. repeat split; auto; lia.
      + destruct Ha as (m & Hm & ->). simpl.
        assert (m = d) by congruence. subst m.
        exists n, (d + 1). repeat split; auto; lia.
      + destruct Ha as (m & Hm & [[_ ->] | [Hne ->]]); [eauto 8|].
        simpl. assert (m = n) by congruence. subst m.
        unfold MAX_BULLETS in Hne.
        exists (n + 1), d. repeat split; auto; lia.
      + destruct Ha as [-> _]. eauto 8.
      + subst c'. eauto 8.
    - destruct IH as (n & d & Hb & Hd & Hn & H0). simpl. eauto 8.
    - destruct IH as (n & d & Hb & Hd & Hn & H0).
      apply tell_inv in Ht. destruct Ht as (p & chunk & _ & _ & ->).
      simpl. eauto 8. }
  destruct I as (n & d & Hb & Hd & Hn & H0).
  split. { exists n, d. repeat split; auto; try congruence; lia. }
  intros o cmd c' Ha.
  apply ask_effect in Ha. destruct Ha as [_ Ha].
  unfold MAX_BULLETS in *.
  destruct cmd.
  - subst c'. exists n, d, n, d. repeat split; auto; try congruence; lia.
  - destruct Ha as (m & Hm & Hnz & ->). simpl.
    assert (m = n) by congruence. subst m.
    exists n, d, (n - 1), d. repeat split; auto; try congruence; lia.
  - destruct Ha as (m & Hm & ->). simpl.
    assert (m = d) by congruence. subst m.
    exists n, d, n, (d + 1). repeat split; auto; try congruence; lia.
  - destruct Ha as (m & Hm & [[_ ->] | [Hne ->]]).
    + exists n, d, n, d. repeat split; auto; try congruence; lia.
    + simpl. assert (m = n) by congruence. subst m.
      exists n, d, (n + 1), d. repeat split; auto; try congruence; lia.
  - destruct Ha as [-> _]. exists n, d, n, d. repeat split; auto; try congruence; lia.
  - subst c'. exists n, d, n, d. repeat split; auto; try congruence; lia.
Qed.

Lemma ammunition_and_dodges_invariant_witness :
  exists n d,
    bullets (set_bullets (fresh "./a" "alice") 2) = Some n
    /\ num_dodges (set_bullets (fresh "./a" "alice") 2) = Some d
    /\ 0 <= n <= 6 /\ MAX_BULLETS = 6 /\ 0 <= d.
Proof.
  apply (ammunition_and_dodges_invariant
           (set_bullets (fresh "./a" "alice") 2)).
  apply (reach_ask (fresh "./a" "alice") (says "reload") RELOAD).
  - apply (reach_init [lit "./a"] (QueueLine (line "alice")) _ []).
    reflexivity.
  - reflexivity.
Defined.

(** ** [loop] *)

(** [ask] touches neither the process handle nor the name. *)
Lemma ask_frame (self self' : Contestant) (o : AskObs) (c : Commands) :
  ask self o = Ok (c, self') ->
  (exists p, process self = Some p /\ process self' = Some p)
  /\ call_args self' = call_args self
  /\ exited self' = exited self
  /\ contestant_name self' = contestant_name self
  /\ latest_command self' = latest_command self.
Proof.
  intros H. apply ask_effect in H. destruct H as [Hp H].
  destruct (process self) as [p|] eqn:E; [clear Hp|congruence].
  destruct c.
  - subst. eauto 8.
  - destruct H as (n & _ & _ & ->). simpl. eauto 8.
  - destruct H as (n & _ & ->). simpl. eauto 8.
  - destruct H as (n & _ & [[_ ->] | [_ ->]]); simpl; eauto 8.
  - destruct H as [-> _]. eauto 8.
  - subst. eauto 8.
Qed.

Lemma loop_inv (state state' : State) (oa ob : AskObs) (wa wb : PipeObs)
    (cont : bool) :
  loop state oa ob wa wb = Ok (cont, state') ->
  exists ca a1 cb b1,
    ask (state_a state) oa = Ok (ca, a1)
    /\ ask (state_b state) ob = Ok (cb, b1).
Proof.
  unfold loop.
  destruct (ask (state_a state) oa) as [[ca a1]|e]; [|discriminate].
  simpl.
  destruct (ask (state_b state) ob) as [[cb b1]|e]; [|discriminate].
  eauto 6.
Qed.

(** A turn in which both queries have returned: [ca] and [cb] are the
    resolved commands, [a1] and [b1] the contestants as the queries
    left them. *)
Section OneTurn.

Variables (state : State) (oa ob : AskObs) (wa wb : PipeObs).
Variables (ca cb : Commands) (a1 b1 : Contestant).
Hypothesis Ha : ask (state_a state) oa = Ok (ca, a1).
Hypothesis Hb : ask (state_b state) ob = Ok (cb, b1).

Let a2 := set_latest_command a1 (Some ca).
Let b2 := set_latest_command b1 (Some cb).

(** A decisive turn returns [False] with the contestants as the
    queries left them and the winner of [verdict], if any; any other
    turn delivers the commands, counts the turn and returns whether the
    limit is still ahead, unless a pipe is broken: then it raises. *)
Lemma loop_result :
  if decisive ca cb then
    loop state oa ob wa wb
    = Ok (false,
          mkState (num_turn state) a2 b2
                  (match verdict ca cb with
                   | Some k => Some k
                   | None => winner state
                   end)
                  (description state))
  else
    match wa, wb with
    | PipeOpen, PipeOpen =>
      exists a3 b3,
        tell a2 cb PipeOpen = Ok a3 /\ tell b2 ca PipeOpen = Ok b3
        /\ loop state oa ob wa wb
           = Ok (negb (num_turn state + 1 >=? TOTAL_TURNS),
                 mkState (num_turn state + 1) a3 b3 (winner state)
                         (description state))
    | _, _ => loop state oa ob wa wb = Raise BrokenPipeError
    end.
Proof.
  destruct (ask_frame _ _ _ _ Ha) as ((pa & _ & Hpa) & _).
  destruct (ask_frame _ _ _ _ Hb) as ((pb & _ & Hpb) & _).
  assert (Hpa2 : process a2 = Some pa) by exact Hpa.
  assert (Hpb2 : process b2 = Some pb) by exact Hpb.
  destruct (tell_ok a2 pa cb Hpa2) as (ka & _ & _ & Ta).
  destruct (tell_ok b2 pb ca Hpb2) as (kb & _ & _ & Tb).
  pose proof (tell_broken a2 pa cb Hpa2) as Fa.
  pose proof (tell_broken b2 pb ca Hpb2) as Fb.
  unfold loop. rewrite Ha. simpl. rewrite Hb. simpl.
  fold a2. fold b2.
  destruct ca, cb; simpl; try reflexivity;
    (destruct wa;
     [destruct wb;
      [exists (set_process a2 (mkProcess (stdin pa ++ [ka ++ [x0a]]))),
              (set_process b2 (mkProcess (stdin pb ++ [kb ++ [x0a]])));
       split; [exact Ta|]; split; [exact Tb|];
       rewrite Ta; simpl; rewrite Tb; simpl;
       destruct (num_turn state + 1 >=? TOTAL_TURNS); reflexivity
      |rewrite Ta; simpl; rewrite Fb; reflexivity]
     |rewrite Fa; reflexivity]).
Qed.

(** [loop] returns whenever both queries do and the deliveries, if the
    turn gets to them, go through. *)
Lemma loop_returns :
  wa = PipeOpen -> wb = PipeOpen ->
  exists cont state', loop state oa ob wa wb = Ok (cont, state').
Proof.
  intros Wa Wb. pose proof loop_result as H. rewrite Wa, Wb in *.
  destruct (decisive ca cb); [eauto|].
  destruct H as (a3 & b3 & _ & _ & H). eauto.
Qed.

(** C5.  On a turn where at least one resolved command is GAME_OVER the
    match ends at once: [loop] returns [False] without delivering
    commands or counting the turn.  If exactly one side's command is
    GAME_OVER the other side is the winner; if both are, [loop] leaves
    the winner as it was, for [finish] to decide. *)
Theorem forfeit_ends_match :
  ca = GAME_OVER \/ cb = GAME_OVER ->
  exists state',
    loop state oa ob wa wb = Ok (false, state')
    /\ num_turn state' = num_turn state
    /\ state_a state' = set_latest_command a1 (Some ca)
    /\ state_b state' = set_latest_command b1 (Some cb)
    /\ (ca = GAME_OVER -> cb <> GAME_OVER -> winner state' = Some KB)
    /\ (cb = GAME_OVER -> ca <> GAME_OVER -> winner state' = Some KA)
    /\ (ca = GAME_OVER -> cb = GAME_OVER -> winner state' = winner state).
Proof.
  intros Hg. pose proof loop_result as H.
  assert (D : decisive ca cb = true).
  { destruct Hg as [E | E]; rewrite E;
      [reflexivity|destruct ca; reflexivity]. }
  rewrite D in H. eexists. split; [exact H|]. simpl.
  repeat split; auto.
  - intros E Hn. rewrite E. destruct cb; try reflexivity. congruence.
  - intros E Hn. rewrite E. destruct ca; try reflexivity. congruence.
  - intros E1 E2. rewrite E1, E2. reflexivity.
Qed.


End OneTurn.

(** ** Claim C5 *)

Lemma forfeit_ends_match_witness :
  exists state',
    loop state0 (Running QueueEmpty) (says "dodge") PipeOpen PipeBroken
    = Ok (false, state')
    /\ num_turn state' = 0
    /\ winner state' = Some KB.
Proof.
  destruct (forfeit_ends_match state0 (Running QueueEmpty) (says "dodge")
              PipeOpen PipeBroken
              GAME_OVER DODGE (fresh "./a" "alice")
              (set_num_dodges (fresh "./b" "bob") 1)
              eq_refl eq_refl (or_introl eq_refl))
    as (state' & H & Hn & _ & _ & Hw & _).
  exists state'. split; [exact H|]. split; [exact Hn|].
  apply Hw; [reflexivity|discriminate].
Defined.

(** ** Claim C1 *)



(** ** [write_to_ui_queue] *)

Lemma view_inv (c : Contestant) (v : View) :
  view c = Ok v ->
  exists n command d,
    bullets c = Some n /\ latest_command c = Some (Some command)
    /\ num_dodges c = Some d
    /\ v = mkView (name c) n (value command) d.
Proof.
  unfold view.
  destruct (bullets c) as [n|]; [|discriminate]. simpl.
  destruct (latest_command c) as [[command|]|]; try discriminate. simpl.
  destruct (num_dodges c) as [d|]; [|discriminate]. simpl.
  intros H; inv H. eauto 8.
Qed.

(** The queue grows by one snapshot, which copies the turn counter, the
    winner key and, when there is one, the description of the state;
    without a description it carries the placeholder text. *)
Lemma write_to_ui_queue_inv (state : State) (q q' : list Snapshot) :
  write_to_ui_queue state q = Ok q' ->
  exists s,
    q' = q ++ [s]
    /\ snap_num_turn s = num_turn state
    /\ snap_winner_key s = winner state
    /\ snap_description s
       = match description state with
         | Some d => d
         | None => lit "un truc au pif"
         end
    /\ view (state_a state) = Ok (snap_a s)
    /\ view (state_b state) = Ok (snap_b s).
Proof.
  unfold write_to_ui_queue.
  destruct (view (state_a state)) as [va|]; [|discriminate]. simpl.
  destruct (view (state_b state)) as [vb|]; [|discriminate]. simpl.
  intros H; inv H. eexists. split; [reflexivity|]. simpl. auto.
Qed.

(** ** [finish] *)

(** Closes [d <> []] for a text built around a source literal. *)
Ltac nonempty :=
  let E := fresh "E" in
  intros E; apply (f_equal (@List.length N)) in E;
  repeat (progress (simpl in E; rewrite ?length_app in E));
  lia.

(** [finish] changes only the winner and the description; it keeps a
    winner that was there, and the description it sets is not empty. *)
Lemma finish_inv (state state' : State) (coin : Key) :
  finish state coin = Ok state' ->
  exists w d,
    state' = set_description (set_winner state w) d
    /\ d <> []
    /\ (forall w0, winner state = Some w0 -> w = w0).
Proof.
  unfold finish.
  destruct (winner state) as [w0|] eqn:W.
  - intros H; inv H. eexists _, _. split; [reflexivity|]. split.
    + nonempty.
    + congruence.
  - destruct (num_dodges (state_a state)) as [da|]; [|discriminate].
    destruct (num_dodges (state_b state)) as [db|]; [|discriminate].
    simpl.
    destruct (da - db =? 0); simpl.
    + intros H; inv H. eexists _, _. split; [reflexivity|]. split.
      * nonempty.
      * discriminate.
    + destruct (da - db <? 0); simpl;
        [|destruct (da - db >? 0); simpl; [|discriminate]];
        intros H; inv H; (eexists _, _; split; [reflexivity|]; split;
          [nonempty|discriminate]).
Qed.

(** ** Claim C6 *)

(** C6.  When the match ends with no winner assigned, [finish] makes
    the contestant with strictly fewer dodges the winner, with a
    description that cites the absolute difference of the dodge counts;
    with equal counts the winner is the outcome of the random draw
    between the two, with a description that mentions the coin toss.
    One of the two paths is taken according to the counts, and the
    snapshot written afterwards reports that winner and description. *)
Theorem finish_resolves_by_dodges (state : State) (coin : Key) (da db : Z) :
  winner state = None ->
  num_dodges (state_a state) = Some da ->
  num_dodges (state_b state) = Some db ->
  exists w d,
    finish state coin = Ok (set_description (set_winner state w) d)
    /\ (da < db ->
        w = KA
        /\ d = fmt (name (state_a state)) ++ lit " wins by having dodged "
               ++ str_of_N (Z.to_N (Z.abs (da - db))) ++ lit " times less")
    /\ (db < da ->
        w = KB
        /\ d = fmt (name (state_b state)) ++ lit " wins by having dodged "
               ++ str_of_N (Z.to_N (Z.abs (da - db))) ++ lit " times less")
    /\ (da = db ->
        w = coin
        /\ d = lit "Toss a coin: " ++ fmt (name (contestant state coin))
               ++ lit " wins.")
    /\ (forall q q',
           write_to_ui_queue (set_description (set_winner state w) d) q
           = Ok q' ->
           exists s, q' = q ++ [s]
                     /\ snap_winner_key s = Some w
                     /\ snap_description s = d).
Proof.
  intros W Ha Hb.
  assert (F : forall w d,
             (forall q q',
                 write_to_ui_queue (set_description (set_winner state w) d) q
                 = Ok q' ->
                 exists s, q' = q ++ [s]
                           /\ snap_winner_key s = Some w
                           /\ snap_description s = d)).
  { intros w d q q' H. apply write_to_ui_queue_inv in H.
    destruct H as (s & -> & _ & Hw & Hd & _). simpl in Hw, Hd. eauto. }
  unfold finish. rewrite W, Ha, Hb. simpl.
  destruct (Z.eqb_spec (da - db) 0) as [E|E]; simpl.
  - eexists _, _. split; [reflexivity|].
    repeat split; try lia; auto; apply F.
  - destruct (Z.ltb_spec (da - db) 0) as [L|L]; simpl.
    + eexists _, _. split; [reflexivity|].
      repeat split; try lia; auto; apply F.
    + destruct (Z.gtb_spec (da - db) 0) as [G|G]; [|lia]. simpl.
      eexists _, _. split; [reflexivity|].
      repeat split; try lia; auto; apply F.
Qed.

Lemma finish_resolves_by_dodges_witness :
  finish state100 KB
  = Ok (set_description (set_winner state100 KA)
          (lit "alice wins by having dodged 3 times less")).
Proof.
  destruct (finish_resolves_by_dodges state100 KB 2 5 eq_refl eq_refl eq_refl)
    as (w & d & F & HA & _).
  destruct (HA eq_refl) as [-> ->]. exact F.
Defined.

(** ** The match *)

(** What one turn leaves in the state. *)
Lemma loop_summary (state state' : State) (oa ob : AskObs) (wa wb : PipeObs)
    (cont : bool) :
  loop state oa ob wa wb = Ok (cont, state') ->
  exists ca cb,
    latest_command (state_a state') = Some (Some ca)
    /\ latest_command (state_b state') = Some (Some cb)
    /\ description state' = description state
    /\ (decisive ca cb = true ->
        cont = false /\ num_turn state' = num_turn state)
    /\ (decisive ca cb = false ->
        cont = negb (num_turn state + 1 >=? TOTAL_TURNS)
        /\ num_turn state' = num_turn state + 1
        /\ winner state' = winner state).
Proof.
  intros H.
  destruct (loop_inv _ _ _ _ _ _ _ H) as (ca & a1 & cb & b1 & Ha & Hb).
  pose proof (loop_result state oa ob wa wb ca cb a1 b1 Ha Hb) as R. simpl in R.
  exists ca, cb. destruct (decisive ca cb).
  - rewrite R in H. inv H. simpl. repeat split; auto; discriminate.
  - destruct wa, wb; try (rewrite R in H; discriminate H).
    destruct R as (a3 & b3 & Ta & Tb & R). rewrite R in H. inv H. simpl.
    apply tell_inv in Ta. destruct Ta as (? & ? & _ & _ & ->).
    apply tell_inv in Tb. destruct Tb as (? & ? & _ & _ & ->).
    simpl. repeat split; auto; discriminate.
Qed.

(** A snapshot shows the commands that the state recorded. *)
Lemma snapshot_decisive (state : State) (q : list Snapshot)
    (s : Snapshot) (ca cb : Commands) :
  write_to_ui_queue state q = Ok (q ++ [s]) ->
  latest_command (state_a state) = Some (Some ca) ->
  latest_command (state_b state) = Some (Some cb) ->
  snap_decisive s = decisive ca cb.
Proof.
  intros H La Lb. apply write_to_ui_queue_inv in H.
  destruct H as (s' & E & _ & _ & _ & Va & Vb).
  apply app_inj_tail in E. destruct E as [_ <-].
  apply view_inv in Va. destruct Va as (? & ca' & ? & _ & La' & _ & Ea).
  apply view_inv in Vb. destruct Vb as (? & cb' & ? & _ & Lb' & _ & Eb).
  assert (ca' = ca) by congruence. assert (cb' = cb) by congruence. subst.
  unfold snap_decisive. rewrite Ea, Eb. simpl.
  rewrite !Commands_of_value. reflexivity.
Qed.

(** The snapshots of a match that ran to its end: those before the
    last are of non-decisive turns, carry the placeholder text and no
    winner; the last one carries the winner and the description that
    [finish] set, and its turn number counts the non-decisive turns. *)
Lemma play_trace (fuel : nat) :
  forall (state state' : State) (obs : nat -> AskObs * AskObs)
  (pipes : nat -> PipeObs * PipeObs) (coin : Key)
         (q q' : list Snapshot),
    play fuel state obs pipes coin q = Some (Ok (q', state')) ->
    exists mid final,
      q' = q ++ mid ++ [final]
      /\ Forall (fun s => snap_decisive s = false) mid
      /\ snap_num_turn final
         = num_turn state + Z.of_nat (List.length mid)
           + (if snap_decisive final then 0 else 1)
      /\ (description state = None ->
          Forall (fun s => snap_description s = placeholder) mid)
      /\ (winner state = None ->
          Forall (fun s => snap_winner_key s = None) mid)
      /\ description state' = Some (snap_description final)
      /\ snap_description final <> []
      /\ winner state' = snap_winner_key final
      /\ winner state' <> None.
Proof.
  induction fuel as [|fuel IH]; intros state state' obs pipes coin q q' H;
    simpl in H; [discriminate|].
  destruct (loop state (fst (obs O)) (snd (obs O))
              (fst (pipes O)) (snd (pipes O))) as [[cont st1]|e] eqn:L;
    [|discriminate].
  destruct (loop_summary _ _ _ _ _ _ _ L) as (ca & cb & La & Lb & Ld & HD & HN).
  destruct cont; simpl in H.
  - (* the match goes on *)
    destruct (write_to_ui_queue st1 q) as [q1|] eqn:W; [|discriminate].
    destruct (write_to_ui_queue_inv _ _ _ W) as (s & -> & Sn & Sw & Sd & _).
    pose proof (snapshot_decisive st1 q s ca cb W La Lb) as SD.
    destruct (decisive ca cb) eqn:D.
    { destruct (HD eq_refl). discriminate. }
    destruct (HN eq_refl) as (_ & Hn & Hw).
    apply IH in H.
    destruct H as (mid & final & -> & Fd & Fn & Fp & Fw & R).
    exists (s :: mid), final. split.
    { rewrite <- !app_assoc. reflexivity. }
    split. { constructor; assumption. }
    split. { rewrite Fn, Hn. simpl List.length. lia. }
    split.
    { intros Hd. constructor.
      - rewrite Sd, Ld, Hd. reflexivity.
      - apply Fp. congruence. }
    split.
    { intros Hw0. constructor.
      - congruence.
      - apply Fw. congruence. }
    exact R.
  - (* the match ends *)
    destruct (finish st1 coin) as [st2|] eqn:F; [|discriminate].
    destruct (write_to_ui_queue st2 q) as [q1|] eqn:W; [|discriminate].
    inv H.
    destruct (finish_inv _ _ _ F) as (w & d & -> & Dn & _).
    destruct (write_to_ui_queue_inv _ _ _ W) as (s & -> & Sn & Sw & Sd & _).
    pose proof (snapshot_decisive _ q s ca cb W La Lb) as SD.
    simpl in Sn, Sw, Sd.
    exists [], s. split; [reflexivity|].
    split; [constructor|].
    split.
    { rewrite Sn, SD. simpl. destruct (decisive ca cb) eqn:D.
      - destruct (HD eq_refl) as [_ ->]. lia.
      - destruct (HN eq_refl) as (_ & -> & _). lia. }
    split; [constructor|]. split; [constructor|].
    simpl. rewrite Sd, Sw. repeat split; auto. discriminate.
Qed.


(** A query keeps the attributes assigned. *)
Lemma ask_ready (c c' : Contestant) (o : AskObs) (command : Commands) :
  ready c -> ask c o = Ok (command, c') -> ready c'.
Proof.
  intros (p & n & d & Hp & Hb & Hd) H.
  apply ask_effect in H. destruct H as [_ H]. unfold ready.
  destruct command.
  - subst. eauto 8.
  - destruct H as (m & _ & _ & ->). simpl. eauto 8.
  - destruct H as (m & _ & ->). simpl. eauto 8.
  - destruct H as (m & _ & [[_ ->] | [_ ->]]); simpl; eauto 8.
  - destruct H as [-> _]. eauto 8.
  - subst. eauto 8.
Qed.

Lemma tell_ready (c c' : Contestant) (command : Commands) (w : PipeObs) :
  ready c -> tell c command w = Ok c' -> ready c'.
Proof.
  intros (p & n & d & Hp & Hb & Hd) H.
  apply tell_inv in H. destruct H as (? & ? & _ & _ & ->).
  unfold ready. simpl. eauto 8.
Qed.

(** With both contestants ready, lines that decode and pipes that take
    the deliveries, a turn returns, and leaves both ready. *)
Lemma loop_ready (state : State) (oa ob : AskObs) :
  ready (state_a state) -> ready (state_b state) ->
  decodable oa -> decodable ob ->
  exists cont state',
    loop state oa ob PipeOpen PipeOpen = Ok (cont, state')
    /\ ready (state_a state') /\ ready (state_b state').
Proof.
  intros Ra Rb Da Db.
  destruct Ra as (pa & na & da & Hpa & Hba & Hda).
  destruct Rb as (pb & nb & db & Hpb & Hbb & Hdb).
  destruct (ask_returns _ pa na da oa Hpa Hba Hda) as (ca & a1 & Ha).
  { intros l E _. apply (Da l E). }
  destruct (ask_returns _ pb nb db ob Hpb Hbb Hdb) as (cb & b1 & Hb).
  { intros l E _. apply (Db l E). }
  assert (Ra1 : ready (set_latest_command a1 (Some ca))).
  { destruct (ask_ready _ _ _ _ (ex_intro _ pa (ex_intro _ na (ex_intro _ da
      (conj Hpa (conj Hba Hda))))) Ha) as (p & n & d & ? & ? & ?).
    exists p, n, d. auto. }
  assert (Rb1 : ready (set_latest_command b1 (Some cb))).
  { destruct (ask_ready _ _ _ _ (ex_intro _ pb (ex_intro _ nb (ex_intro _ db
      (conj Hpb (conj Hbb Hdb))))) Hb) as (p & n & d & ? & ? & ?).
    exists p, n, d. auto. }
  pose proof (loop_result state oa ob PipeOpen PipeOpen ca cb a1 b1 Ha Hb)
    as R.
  simpl in R.
  destruct (decisive ca cb).
  - eexists _, _. split; [exact R|]. simpl. auto.
  - destruct R as (a3 & b3 & Ta & Tb & R).
    eexists _, _. split; [exact R|]. simpl.
    split; [exact (tell_ready _ _ _ _ Ra1 Ta)|].
    exact (tell_ready _ _ _ _ Rb1 Tb).
Qed.

Lemma finish_returns (state : State) (coin : Key) :
  ready (state_a state) -> ready (state_b state) ->
  exists state',
    finish state coin = Ok state'
    /\ state_a state' = state_a state /\ state_b state' = state_b state.
Proof.
  intros (_ & _ & da & _ & _ & Hda) (_ & _ & db & _ & _ & Hdb).
  unfold finish. destruct (winner state); [eauto|].
  rewrite Hda, Hdb. simpl.
  destruct (Z.eqb_spec (da - db) 0); simpl; [eauto|].
  destruct (Z.ltb_spec (da - db) 0); simpl; [eauto|].
  destruct (Z.gtb_spec (da - db) 0); simpl; [eauto|lia].
Qed.

Lemma write_to_ui_queue_returns (state : State) (q : list Snapshot)
    (ca cb : Commands) :
  ready (state_a state) -> ready (state_b state) ->
  latest_command (state_a state) = Some (Some ca) ->
  latest_command (state_b state) = Some (Some cb) ->
  exists q', write_to_ui_queue state q = Ok q'.
Proof.
  intros (_ & na & da & _ & Hba & Hda) (_ & nb & db & _ & Hbb & Hdb) La Lb.
  unfold write_to_ui_queue, view.
  rewrite Hba, Hda, Hbb, Hdb, La, Lb. simpl. eauto.
Qed.

(** The loop of [game] returns the queue and the final state, without
    an exception, when both contestants are ready, every line they
    print is valid UTF-8, every delivery goes through and the fuel
    covers the turns left. *)
Lemma play_returns (fuel : nat) :
  forall (state : State) (obs : nat -> AskObs * AskObs)
         (pipes : nat -> PipeObs * PipeObs) (coin : Key)
         (q : list Snapshot),
    (1 <= fuel)%nat ->
    TOTAL_TURNS - num_turn state <= Z.of_nat fuel ->
    ready (state_a state) -> ready (state_b state) ->
    (forall n, decodable (fst (obs n)) /\ decodable (snd (obs n))) ->
    (forall n, pipes n = (PipeOpen, PipeOpen)) ->
    exists q' state',
      play fuel state obs pipes coin q = Some (Ok (q', state')).
Proof.
  induction fuel as [|fuel IH];
    intros state obs pipes coin q H1 Hf Ra Rb Hd Hp; [lia|].
  simpl.
  destruct (loop_ready state (fst (obs O)) (snd (obs O)) Ra Rb
              (proj1 (Hd O)) (proj2 (Hd O)))
    as (cont & st1 & L & Ra1 & Rb1).
  rewrite (Hp O). simpl fst. simpl snd.
  rewrite L.
  destruct (loop_summary _ _ _ _ _ _ _ L) as (ca & cb & La & Lb & _ & HD & HN).
  destruct cont; simpl.
  - destruct (write_to_ui_queue_returns st1 q ca cb Ra1 Rb1 La Lb)
      as (q1 & W).
    rewrite W.
    destruct (decisive ca cb).
    { destruct (HD eq_refl). discriminate. }
    destruct (HN eq_refl) as (Hc & Hn & _).
    symmetry in Hc. rewrite negb_true_iff, Z.geb_leb, Z.leb_gt in Hc.
    apply IH; auto; lia.
  - destruct (finish_returns st1 coin Ra1 Rb1) as (st2 & F & Ea & Eb).
    rewrite F.
    assert (Ra2 : ready (state_a st2)) by (rewrite Ea; exact Ra1).
    assert (Rb2 : ready (state_b st2)) by (rewrite Eb; exact Rb1).
    assert (La2 : latest_command (state_a st2) = Some (Some ca))
      by (rewrite Ea; exact La).
    assert (Lb2 : latest_command (state_b st2) = Some (Some cb))
      by (rewrite Eb; exact Lb).
    destruct (write_to_ui_queue_returns st2 q ca cb Ra2 Rb2 La2 Lb2)
      as (q1 & W).
    rewrite W. eauto.
Qed.

(** ** [setup] and [game] *)

(** The state that [setup] returns: turn 0, no winner, no description,
    two contestants that are ready and not marked exited. *)
Lemma setup_inv (args_a args_b : list str) (oa ob : StartObs)
(log : LogObs) (state : State) :
  snd (setup args_a args_b oa ob log) = Ok state ->
  num_turn state = 0 /\ winner state = None /\ description state = None
  /\ ready (state_a state) /\ ready (state_b state)
  /\ exited (state_a state) = false /\ exited (state_b state) = false.
Proof.
  assert (R : forall args so ro c out,
             init args so ro = Ok (c, out) -> exited c = false -> ready c).
  { intros args so ro c out Hi He.
    destruct so.
    - destruct (init_not_spawned args PermissionDenied ro) as (o' & E);
        [discriminate|]. rewrite E in Hi. inv Hi. discriminate.
    - destruct (init_not_spawned args FileNotFound ro) as (o' & E);
        [discriminate|]. rewrite E in Hi. inv Hi. discriminate.
    - apply init_spawned in Hi. destruct Hi as (_ & Hp & Hb & Hd & _).
      exists (mkProcess []), 1, 0. auto. }
  unfold setup.
  destruct (init args_a (spawn oa) (first_line oa)) as [[a out_a]|] eqn:Ia;
    [|discriminate].
  destruct (init args_b (spawn ob) (first_line ob)) as [[b out_b]|] eqn:Ib;
    [|discriminate].
  simpl. unfold is_alive.
  destruct (exited a) eqn:Ea; simpl; [discriminate|].
  destruct (process a); simpl; [|discriminate].
  destruct (still_running oa); simpl; [|discriminate].
  destruct (exited b) eqn:Eb; simpl; [discriminate|].
  destruct (process b); simpl; [|discriminate].
  destruct (still_running ob); simpl; [|discriminate].
  destruct log; simpl; [|discriminate].
  intros H; inv H. simpl. repeat split; eauto.
Qed.

(** X23.  [game] returns the queue and the final state, without an
    exception, when both programs start, print a name, are still
    running when [setup] checks, the log file opens, every line printed
    is valid UTF-8 and every delivery goes through; one hundred
    iterations are enough. *)
Lemma game_returns (args_a args_b : list str) (oa ob : StartObs)
    (la lb : bytes) (sa sb : str) (obs : nat -> AskObs * AskObs)
    (pipes : nat -> PipeObs * PipeObs) (coin : Key) :
  oa = mkStartObs Spawned (QueueLine la) true ->
  ob = mkStartObs Spawned (QueueLine lb) true ->
  decode la = Some sa -> strip sa <> [] ->
  decode lb = Some sb -> strip sb <> [] ->
  (forall n, decodable (fst (obs n)) /\ decodable (snd (obs n))) ->
  (forall n, pipes n = (PipeOpen, PipeOpen)) ->
  exists q state',
    game 100 args_a args_b oa ob LogOpened obs pipes coin
    = Some (Ok (q, state')).
Proof.
  intros -> -> Da Na Db Nb Hd Hp.
  unfold game.
  assert (E : snd (setup args_a args_b
                     (mkStartObs Spawned (QueueLine la) true)
                     (mkStartObs Spawned (QueueLine lb) true) LogOpened)
              = Ok (mkState 0
                      (mkContestant args_a false (Some (mkProcess []))
                         (Some (Some (strip sa))) (Some 1) (Some 0)
                         (Some None))
                      (mkContestant args_b false (Some (mkProcess []))
                         (Some (Some (strip sb))) (Some 1) (Some 0)
                         (Some None))
                      None None)).
  { unfold setup, init. simpl. unfold read_name, read. simpl.
    rewrite Da, Db.
    destruct (strip sa) eqn:Sa; [congruence|].
    destruct (strip sb) eqn:Sb; [congruence|].
    reflexivity. }
  rewrite E.
  apply play_returns; auto.
  - lia.
  - unfold TOTAL_TURNS. simpl. lia.
  - exists (mkProcess []), 1, 0. auto.
  - exists (mkProcess []), 1, 0. auto.
Qed.

(** ** Claim C8 *)

(** C8, as the claim states it, fails on the first snapshot of a match
    of two turns: it is put on the queue before the match ends, it has
    no winner yet, and its description is the text "un truc au pif",
    which is not the empty string. *)
Lemma early_snapshot_description_not_empty :
  exists s0 s1 state',
    game 100 [lit "./a"] [lit "./b"] (good_start "alice") (good_start "bob")
    LogOpened
         two_turns delivered KA
    = Some (Ok ([s0; s1], state'))
    /\ snap_winner_key s0 = None
    /\ snap_description s0 = lit "un truc au pif"
    /\ snap_description s0 <> []
    /\ snap_description s1 = lit "alice wins".
Proof.
  eexists _, _, _. split; [vm_compute; reflexivity|].
  simpl. repeat split; discriminate.
Qed.

(** C8 (amended).  Every snapshot put on the queue before the match
    ends carries the placeholder description "un truc au pif" and no
    winner; the final snapshot, and only it, carries the description
    that [finish] set, which is not empty, together with the winner. *)
Theorem snapshot_descriptions (fuel : nat) (args_a args_b : list str)
    (oa ob : StartObs) (log : LogObs) (obs : nat -> AskObs * AskObs)
    (pipes : nat -> PipeObs * PipeObs) (coin : Key)
    (q : list Snapshot) (state' : State) :
  game fuel args_a args_b oa ob log obs pipes coin = Some (Ok (q, state')) ->
  exists mid final,
    q = mid ++ [final]
    /\ Forall (fun s => snap_description s = lit "un truc au pif"
                        /\ snap_winner_key s = None) mid
    /\ description state' = Some (snap_description final)
    /\ snap_description final <> []
    /\ winner state' = snap_winner_key final
    /\ winner state' <> None.
Proof.
  unfold game.
  destruct (snd (setup args_a args_b oa ob log)) as [state|] eqn:S;
    [|discriminate].
  apply setup_inv in S. destruct S as (_ & Hw & Hd & _).
  intros H. apply play_trace in H.
  destruct H as (mid & final & -> & _ & _ & Fp & Fw & R).
  exists mid, final. split; [reflexivity|]. split; [|exact R].
  specialize (Fp Hd). specialize (Fw Hw).
  rewrite Forall_forall in *. intros s Hs. split; auto.
Qed.

Lemma snapshot_descriptions_witness :
  exists mid final state',
    game 100 [lit "./a"] [lit "./b"] (good_start "alice") (good_start "bob")
    LogOpened
         two_turns delivered KA
    = Some (Ok (mid ++ [final], state'))
    /\ Forall (fun s => snap_description s = lit "un truc au pif"
                        /\ snap_winner_key s = None) mid
    /\ snap_description final <> [].
Proof.
  destruct (game 100 [lit "./a"] [lit "./b"] (good_start "alice")
              (good_start "bob") LogOpened two_turns delivered KA)
    as [[[q state']|e]|] eqn:G; try (vm_compute in G; discriminate G).
  destruct (snapshot_descriptions 100 [lit "./a"] [lit "./b"]
              (good_start "alice") (good_start "bob")
              LogOpened two_turns delivered KA q state' G)
    as (mid & final & -> & F & _ & N & _).
  exists mid, final, state'. auto.
Defined.

(** ** Claim C10 *)





(** ** Claim C7 *)

(** C7, as the claim states it, fails for the fifth token: the arbiter
    tells a contestant [shoot_no_bullet]; echoed back, the line reads
    as that token, names the enum member SHOOT_NO_BULLET, and the check
    of [ask] turns it into STAND, which is what [ask] returns. *)
Lemma shoot_no_bullet_echo_resolves_to_stand :
  exists self,
    tell (fresh "./a" "alice") SHOOT_NO_BULLET PipeOpen = Ok self
    /\ written self = line "shoot_no_bullet"
    /\ read self TURN_TIME (QueueLine (written self))
       = Ok (value SHOOT_NO_BULLET)
    /\ check_command (value SHOOT_NO_BULLET) = Ok (Return STAND)
    /\ ask self (Running (QueueLine (written self))) = Ok (STAND, self).
Proof. eexists. split; [reflexivity|]. repeat split. Qed.

(** C7 (amended).  For each of the four tokens stand, shoot, dodge and
    reload that the arbiter may write to a contestant's stdin, the
    written line, echoed back, reads as the command's token and the
    check of [ask] yields the command that was written.  The fifth
    token, shoot_no_bullet, reads back as itself but the check yields
    STAND.  (The state update that follows the check is the subject of
    C2.) *)
Theorem echo_round_trip (self self' : Contestant) (c : Commands)
    (w : PipeObs) :
  tell self c w = Ok self' ->
  read self' TURN_TIME (QueueLine (written self')) = Ok (value c)
  /\ exists k,
      check_command (value c) = Ok k
      /\ (c = STAND \/ c = SHOOT \/ c = DODGE \/ c = RELOAD -> decoded k = c)
      /\ (c = SHOOT_NO_BULLET -> decoded k = STAND).
Proof.
  intros H. apply tell_inv in H. destruct H as (p & chunk & Hp & He & ->).
  split.
  - unfold read, written. simpl. rewrite last_last.
    destruct (tell_ok self p c Hp) as (chunk' & He' & Hd & _).
    assert (chunk' = chunk) by congruence. subst chunk'.
    rewrite Hd.
    assert (S : strip (value c ++ [10%N]) = value c)
      by (destruct c; reflexivity).
    rewrite S. reflexivity.
  - rewrite check_command_value. eexists. split; [reflexivity|].
    split.
    + intros [-> | [-> | [-> | ->]]]; reflexivity.
    + intros ->. reflexivity.
Qed.

Lemma echo_round_trip_witness :
  exists self k,
    tell (fresh "./a" "alice") DODGE PipeOpen = Ok self
    /\ read self TURN_TIME (QueueLine (written self)) = Ok (value DODGE)
    /\ check_command (value DODGE) = Ok k
    /\ decoded k = DODGE.
Proof.
  destruct (tell (fresh "./a" "alice") DODGE PipeOpen) as [self|e] eqn:T;
    [|discriminate T].
  destruct (echo_round_trip (fresh "./a" "alice") self DODGE PipeOpen T)
    as (R & k & K & HK & _).
  exists self, k. repeat split; auto 6.
Defined.

(** ** Stripping twice *)

Lemma lstrip_head (s : str) :
  lstrip s = [] \/ exists c t, lstrip s = c :: t /\ isspace c = false.
Proof.
  induction s as [|c s IH]; simpl; [auto|].
  destruct (isspace c) eqn:E; [exact IH|]. right. eauto.
Qed.

Lemma lstrip_idem (s : str) : lstrip (lstrip s) = lstrip s.
Proof.
  destruct (lstrip_head s) as [-> | (c & t & -> & E)]; [reflexivity|].
  simpl. rewrite E. reflexivity.
Qed.

Lemma lstrip_snoc (s : str) (c : N) :
  isspace c = false -> lstrip (s ++ [c]) = lstrip s ++ [c].
Proof.
  intros E. induction s as [|x s IH]; simpl.
  - rewrite E. reflexivity.
  - destruct (isspace x); [exact IH|reflexivity].
Qed.

Lemma rstrip_cons (c : N) (s : str) :
  isspace c = false -> rstrip (c :: s) = c :: rstrip s.
Proof.
  intros E. unfold rstrip. simpl rev.
  rewrite (lstrip_snoc _ _ E), rev_app_distr. reflexivity.
Qed.

Lemma rstrip_idem (s : str) : rstrip (rstrip s) = rstrip s.
Proof.
  unfold rstrip. rewrite rev_involutive, lstrip_idem. reflexivity.
Qed.

(** [ask] strips the line that [read] already stripped: nothing more
    goes. *)
Lemma strip_idem (s : str) : strip (strip s) = strip s.
Proof.
  unfold strip.
  destruct (lstrip_head s) as [-> | (c & t & -> & E)]; [reflexivity|].
  rewrite (rstrip_cons c t E). simpl lstrip. rewrite E.
  rewrite <- (rstrip_cons c t E). apply rstrip_idem.
Qed.

(** ** Claim C4 *)

(** What holds of C4: a process that is gone and an end of stream
    resolve to STAND, a timeout to GAME_OVER, and a line that decodes
    but is none of shoot, dodge and reload once stripped resolves to
    STAND, all without touching the contestant. *)
Lemma ask_resolves_read_outcomes (self : Contestant) (p : Process) :
  exited self = false -> process self = Some p ->
  ask self NotRunning = Ok (STAND, self)
  /\ ask self (Running Exited) = Ok (STAND, self)
  /\ ask self (Running QueueEmpty) = Ok (GAME_OVER, self)
  /\ (forall l s,
         decode l = Some s ->
         strip s <> value SHOOT -> strip s <> value DODGE ->
         strip s <> value RELOAD ->
         ask self (Running (QueueLine l)) = Ok (STAND, self))
  /\ (forall l,
         decode l = None ->
         ask self (Running (QueueLine l)) = Raise UnicodeDecodeError).
Proof.
  intros He Hp.
  split; [|split; [|split; [|split]]];
    try (unfold ask, is_alive, read; rewrite He, Hp; reflexivity).
  - intros l s Hd N1 N2 N3. rewrite (ask_line self p l s He Hp Hd).
    destruct (check_command_cases (strip s)) as [E|(c & _ & Hs & Hc)].
    + rewrite E. reflexivity.
    + rewrite strip_idem in Hs.
      destruct Hc as [-> | [-> | ->]]; congruence.
  - intros l Hd. unfold ask, is_alive, read. rewrite He, Hp. simpl.
    rewrite Hd. reflexivity.
Qed.

(** C4 (failing input).  A line that is not valid UTF-8, here the byte
    ff before the newline, is not resolved into a command: [ask] lets
    the [UnicodeDecodeError] of [read] through, and so do [loop] and
    [game], on the first turn of a match. *)
Theorem undecodable_line_raises :
  ask (fresh "./a" "alice") (Running (QueueLine [xff; x0a]))
  = Raise UnicodeDecodeError
  /\ loop state0 (Running (QueueLine [xff; x0a])) (says "stand")
          PipeOpen PipeOpen
     = Raise UnicodeDecodeError
  /\ game 100 [lit "./a"] [lit "./b"] (good_start "alice") (good_start "bob")
          LogOpened
          (fun _ => (Running (QueueLine [xff; x0a]), says "stand"))
          delivered KA
     = Some (Raise UnicodeDecodeError).
Proof. repeat split. Qed.

(** ** Claim C9 *)

(** What holds of C9: when the spawn fails the object keeps the
    invocation string as its name, and every message that [__init__]
    prints about a contestant it marks dead names it by the invocation
    string. *)
Lemma spawn_failure_keeps_invocation_name (args : list str) (so : SpawnObs)
    (ro : ReadObs) :
  so <> Spawned ->
  exists c out,
    init args so ro = Ok (c, out)
    /\ exited c = true
    /\ name c = Some (join (lit " ") args).
Proof.
  intros H. destruct (init_not_spawned args so ro H) as (out & E).
  eexists _, _. split; [exact E|]. split; reflexivity.
Qed.

Lemma startup_reports_name_invocation (args : list str) (so : SpawnObs)
    (ro : ReadObs) (c : Contestant) (out : list str) :
  init args so ro = Ok (c, out) -> exited c = true ->
  exists before after,
    out = [before ++ join (lit " ") args ++ after].
Proof.
  unfold init. destruct so; simpl.
  - intros H _. inv H. exists (lit "Command '"), (lit "': Permission denied").
    reflexivity.
  - intros H _. inv H. exists (lit "Command '"), (lit "' not found").
    reflexivity.
  - unfold read_name, read. simpl. destruct ro as [| |l]; simpl.
    + intros H _. inv H. exists [], (lit " exited"). reflexivity.
    + intros H _. inv H. eexists [], _. reflexivity.
    + destruct (decode l) as [s|]; [|discriminate].
      destruct (strip s); simpl; intros H E; inv H.
      * exists [], (lit " didn't send its name"). reflexivity.
      * discriminate E.
Qed.

(** C9 (failing input).  When the start-up read ends in EndOfStream or
    in a timeout, [read_name] returns [None] after its report and
    [__init__] stores that as the name: the contestant is marked dead
    and its name is Python's [None], not the invocation string. *)
Theorem startup_read_failure_loses_name (args : list str) :
  (exists c,
      init args Spawned Exited
      = Ok (c, [join (lit " ") args ++ lit " exited"])
      /\ exited c = true
      /\ name c = None
      /\ name c <> Some (join (lit " ") args))
  /\ (exists c msg,
         init args Spawned QueueEmpty = Ok (c, [msg])
         /\ exited c = true
         /\ name c = None
         /\ name c <> Some (join (lit " ") args)).
Proof.
  split.
  - eexists. split; [reflexivity|]. simpl. repeat split. discriminate.
  - eexists _, _. split; [reflexivity|]. simpl. repeat split. discriminate.
Qed.

(** An empty first line is kept as the name: the contestant is marked
    dead and its name is the empty string. *)
Lemma empty_name_line_keeps_empty_name (args : list str) :
  exists c,
    init args Spawned (QueueLine [x0a])
    = Ok (c, [join (lit " ") args ++ lit " didn't send its name"])
    /\ exited c = true
    /\ name c = Some [].
Proof. eexists. split; [reflexivity|]. split; reflexivity. Qed.

(** * Further properties *)

(** ** The command line *)

Lemma index_found (x : str) (l : list str) (i : nat) :
  index x l = Ok i ->
  l = firstn i l ++ x :: skipn (i + 1) l /\ ~ In x (firstn i l).
Proof.
  revert i. induction l as [|y l IH]; intros i; simpl; [discriminate|].
  destruct (str_eqb y x) eqn:E.
  - intros H; inv H. apply str_eqb_eq in E. subst. simpl. auto.
  - destruct (index x l) as [n|e]; simpl; [|discriminate].
    intros H; inv H. destruct (IH n eq_refl) as [Hl Hn].
    simpl. split.
    + f_equal. exact Hl.
    + intros [-> | Hin]; [|auto].
      assert (T : str_eqb x x = true) by (apply str_eqb_eq; reflexivity).
      congruence.
Qed.

Lemma index_first (x : str) (a b : list str) :
  ~ In x a -> index x (a ++ x :: b) = Ok (List.length a).
Proof.
  induction a as [|y a IH]; simpl; intros Hn.
  - assert (T : str_eqb x x = true) by (apply str_eqb_eq; reflexivity).
    rewrite T. reflexivity.
  - destruct (str_eqb y x) eqn:E.
    + apply str_eqb_eq in E. subst. exfalso. auto.
    + rewrite IH by auto. reflexivity.
Qed.

Lemma index_absent (x : str) (l : list str) :
  ~ In x l <-> index x l = Raise ValueError.
Proof.
  induction l as [|y l IH]; simpl.
  - split; auto.
  - destruct (str_eqb y x) eqn:E.
    + apply str_eqb_eq in E. subst. split; [intros H; exfalso; auto|].
      discriminate.
    + assert (y <> x).
      { intros ->.
        assert (T : str_eqb x x = true) by (apply str_eqb_eq; reflexivity).
        congruence. }
      split.
      * intros Hn. assert (Hl : ~ In x l) by auto.
        apply IH in Hl. rewrite Hl. reflexivity.
      * destruct (index x l) as [n|e] eqn:I; simpl; [discriminate|].
        intros H0; inv H0. intros [? | Hin]; [auto|].
        apply (proj2 IH); auto.
Qed.

(** X1.  [setup] splits the command line at the first ["-vs-"]: it
    yields the vectors [a] and [b] exactly when the arguments are [a],
    then ["-vs-"], then [b], with no ["-vs-"] inside [a]; a later
    ["-vs-"] stays in [b]. *)
Theorem split_args_at_first_separator (argv0 : str) (args a b : list str) :
  snd (split_args argv0 args) = Ok (a, b)
  <-> args = a ++ lit "-vs-" :: b /\ ~ In (lit "-vs-") a.
Proof.
  unfold split_args. split.
  - destruct (index (lit "-vs-") args) as [i|e] eqn:I.
    + simpl. intros H; inv H. apply index_found in I. exact I.
    + destruct e; discriminate.
  - intros [-> Hn]. rewrite (index_first _ a b Hn). simpl.
    rewrite firstn_app, Nat.sub_diag, firstn_all. simpl.
    rewrite app_nil_r. f_equal. f_equal.
    rewrite skipn_app.
    replace (List.length a + 1 - List.length a)%nat with 1%nat by lia.
    rewrite skipn_all2 by lia. reflexivity.
Qed.

(** X2.  Without a ["-vs-"] among the arguments, and only then,
    [setup] prints the usage line that names the program and exits
    with status 1, before any contestant is started. *)
Theorem split_args_usage (argv0 : str) (args : list str) :
  ~ In (lit "-vs-") args
  <-> split_args argv0 args
      = ([lit "Usage: " ++ argv0 ++ lit " program_a args -vs- program_b args"],
         Raise (SystemExit 1)).
Proof.
  unfold split_args. split.
  - intros H. apply index_absent in H. rewrite H. reflexivity.
  - destruct (index (lit "-vs-") args) as [i|e] eqn:I.
    + discriminate.
    + destruct e; try discriminate. intros _. apply index_absent. exact I.
Qed.

(** ** The line reader *)

Lemma is_newline_eq (b : byte) : is_newline b = true <-> b = x0a.
Proof.
  unfold is_newline. split.
  - apply Byte.byte_dec_bl.
  - apply Byte.byte_dec_lb.
Qed.

Lemma readlines_concat (cur out : bytes) :
  List.concat (readlines cur out) = rev cur ++ out.
Proof.
  revert cur. induction out as [|b out IH]; intros cur; simpl.
  - destruct cur; simpl; rewrite ?app_nil_r; reflexivity.
  - destruct (is_newline b); simpl; rewrite IH; simpl;
      rewrite <- ?app_assoc; reflexivity.
Qed.

(** X3.  The line reader loses nothing and keeps the order: the
    queued pieces, put end to end, are the bytes the subprocess wrote,
    after whatever the queue held before. *)
Theorem enqueue_output_keeps_every_byte (out : bytes) (queue : list bytes) :
  List.concat (enqueue_output out queue) = List.concat queue ++ out.
Proof.
  unfold enqueue_output. rewrite List.concat_app, readlines_concat. reflexivity.
Qed.

Lemma readlines_body (cur body rest : bytes) :
  Forall (fun b => is_newline b = false) body ->
  readlines cur (body ++ x0a :: rest)
  = (rev cur ++ body ++ [x0a]) :: readlines [] rest.
Proof.
  intros H. revert cur. induction H as [|b body Hb _ IH]; intros cur.
  - reflexivity.
  - simpl. rewrite Hb, IH. simpl. rewrite <- !app_assoc. reflexivity.
Qed.

Lemma readlines_tail (cur tail : bytes) :
  Forall (fun b => is_newline b = false) tail ->
  rev cur ++ tail <> [] ->
  readlines cur tail = [rev cur ++ tail].
Proof.
  intros H. revert cur. induction H as [|b tail Hb _ IH]; intros cur Hn.
  - simpl. rewrite app_nil_r in *.
    destruct cur; [simpl in Hn; congruence|reflexivity].
  - simpl. rewrite Hb, IH.
    + simpl. rewrite <- app_assoc. reflexivity.
    + simpl. rewrite <- app_assoc. simpl. intros E.
      apply app_eq_nil in E. destruct E as [_ E]. discriminate.
Qed.

(** X4.  Each line the subprocess prints becomes one entry of the
    queue, newline included; what it writes after its last newline
    becomes a last entry of its own, and nothing is queued for an empty
    remainder. *)
Theorem enqueue_output_one_entry_per_line
    (bodies : list bytes) (tail : bytes) (queue : list bytes) :
  Forall (Forall (fun b => is_newline b = false)) bodies ->
  Forall (fun b => is_newline b = false) tail ->
  enqueue_output (List.concat (map (fun body => body ++ [x0a]) bodies) ++ tail)
                 queue
  = queue ++ map (fun body => body ++ [x0a]) bodies
          ++ match tail with [] => [] | _ => [tail] end.
Proof.
  intros Hb Ht. unfold enqueue_output. f_equal.
  induction Hb as [|body bodies H _ IH]; simpl.
  - destruct tail; [reflexivity|].
    rewrite (readlines_tail [] _ Ht); [reflexivity|discriminate].
  - rewrite <- !app_assoc. simpl.
    rewrite (readlines_body [] body _ H). simpl. f_equal. exact IH.
Qed.

Lemma enqueue_output_one_entry_per_line_witness :
  enqueue_output (line "alice" ++ line "shoot" ++ list_byte_of_string "do") []
  = [line "alice"; line "shoot"; list_byte_of_string "do"].
Proof.
  apply (enqueue_output_one_entry_per_line
           [list_byte_of_string "alice"; list_byte_of_string "shoot"]
           (list_byte_of_string "do") []).
  - repeat constructor.
  - repeat constructor.
Defined.

(** ** Tokens *)

Lemma value_inj (c d : Commands) : value c = value d -> c = d.
Proof. destruct c, d; try reflexivity; discriminate. Qed.

(** X5.  The enum's lookup by value inverts [value]: a text names the
    member [c] exactly when it is [c]'s token, so the six tokens are
    distinct and matching is exact, case included. *)
Theorem Commands_lookup_inverts_value :
  (forall v c, Commands_of v = Ok c <-> v = value c)
  /\ (forall c d, value c = value d -> c = d)
  /\ (forall v, (forall c, v <> value c) <-> Commands_of v = Raise ValueError).
Proof.
  split; [|split].
  - intros v c. split.
    + apply Commands_of_sound.
    + intros ->. apply Commands_of_value.
  - apply value_inj.
  - intros v. split.
    + intros H. destruct (Commands_of v) as [c|e] eqn:E.
      * apply Commands_of_sound in E. exfalso. apply (H c E).
      * apply Commands_of_raises in E. subst. reflexivity.
    + intros H c ->. rewrite Commands_of_value in H. discriminate.
Qed.

(** X6.  The check for a valid command never raises; it lets a line
    through exactly when the line, stripped, is one of the tokens
    shoot, dodge and reload, and turns every other line into STAND:
    the tokens stand, shoot_no_bullet and game_over included. *)
Theorem check_command_accepts_three_tokens (s : str) (c : Commands) :
  (check_command s = Ok (Valid c)
   <-> strip s = value c /\ (c = SHOOT \/ c = DODGE \/ c = RELOAD))
  /\ (check_command s = Ok (Return STAND)
      <-> strip s <> value SHOOT /\ strip s <> value DODGE
          /\ strip s <> value RELOAD)
  /\ (exists k, check_command s = Ok k).
Proof.
  destruct (check_command_cases s) as [E | (k & E & Hs & Hk)].
  - assert (N : forall d, d = SHOOT \/ d = DODGE \/ d = RELOAD ->
                          strip s <> value d).
    { intros d Hd Hv. unfold check_command in E.
      rewrite Hv, Commands_of_value in E.
      destruct Hd as [-> | [-> | ->]]; discriminate E. }
    rewrite E. split; [|split; [|eauto]].
    + split; [discriminate|]. intros [Hv Hc]. exfalso. apply (N c Hc Hv).
    + split; [|reflexivity]. intros _. repeat split; apply N; auto.
  - rewrite E. split; [|split; [|eauto]].
    + split.
      * intros H; inv H. auto.
      * intros [Hv _]. rewrite Hv in Hs. apply value_inj in Hs.
        subst. reflexivity.
    + split; [discriminate|]. intros (N1 & N2 & N3).
      destruct Hk as [-> | [-> | ->]]; congruence.
Qed.

(** ** Where a resolved command comes from *)

Lemma check_command_strip (s : str) :
  check_command (strip s) = check_command s.
Proof. unfold check_command. rewrite strip_idem. reflexivity. Qed.

(** Every way [ask] can return, by the command returned. *)
Lemma ask_inv (self self' : Contestant) (o : AskObs) (c : Commands) :
  ask self o = Ok (c, self') ->
  (c = STAND
   /\ (exited self = true \/ o = NotRunning \/ o = Running Exited
       \/ exists l s, o = Running (QueueLine l) /\ decode l = Some s
                      /\ check_command s = Ok (Return STAND)))
  \/ (c = GAME_OVER /\ exited self = false /\ o = Running QueueEmpty)
  \/ (exists l s k,
         exited self = false /\ o = Running (QueueLine l)
         /\ decode l = Some s /\ check_command s = Ok (Valid k)
         /\ (c = k \/ k = SHOOT /\ c = SHOOT_NO_BULLET)).
Proof.
  unfold ask, is_alive.
  destruct (exited self) eqn:He; simpl.
  { destruct (process self); simpl; [|discriminate].
    intros H; inv H. left. auto. }
  destruct (process self) as [p|] eqn:Hp; simpl; [|discriminate].
  destruct o as [|r]; simpl.
  { intros H; inv H. left. auto. }
  unfold read. rewrite Hp. simpl.
  destruct r as [| |l].
  - intros H; inv H. left. auto.
  - intros H; inv H. right. left. auto.
  - destruct (decode l) as [s|] eqn:Hd; [|discriminate].
    rewrite check_command_strip.
    destruct (check_command_cases s) as [E | (k & E & _ & Hk)]; rewrite E;
      simpl.
    + intros H; inv H. left. split; [reflexivity|].
      right. right. right. eauto.
    + intros H. right. right. exists l, s, k.
      repeat split; auto.
      destruct Hk as [-> | [-> | ->]]; simpl in H.
      * destruct (bullets self) as [n|]; [|discriminate]. simpl in H.
        destruct (n =? 0); simpl in H; inv H; auto.
      * destruct (num_dodges self) as [n|]; [|discriminate]. simpl in H.
        inv H. auto.
      * destruct (bullets self) as [n|]; [|discriminate]. simpl in H.
        destruct (n =? MAX_BULLETS); simpl in H; inv H; auto.
Qed.

(** X7.  A contestant forfeits only by staying silent: [ask] resolves
    to GAME_OVER only when the queue stayed empty for the whole turn
    time, never because of a line the contestant printed (the token
    game_over included), and the contestant is left as it was. *)
Theorem forfeit_only_by_timeout (self self' : Contestant) (o : AskObs) :
  ask self o = Ok (GAME_OVER, self') ->
  o = Running QueueEmpty /\ exited self = false /\ self' = self.
Proof.
  intros H. pose proof (ask_effect _ _ _ _ H) as [_ E].
  apply ask_inv in H.
  destruct H as [[H _] | [(_ & He & Ho) | (l & s & k & _ & _ & _ & K & Hc)]].
  - discriminate.
  - auto.
  - destruct (check_command_cases s) as [E' | (k' & E' & _ & Hk)];
      rewrite E' in K; inv K.
    destruct Hc as [<- | [_ Hc]]; [|discriminate].
    destruct Hk as [Hk | [Hk | Hk]]; discriminate.
Qed.

Lemma forfeit_only_by_timeout_witness :
  Running QueueEmpty = Running QueueEmpty
  /\ exited (fresh "./a" "alice") = false
  /\ fresh "./a" "alice" = fresh "./a" "alice".
Proof.
  exact (forfeit_only_by_timeout (fresh "./a" "alice") (fresh "./a" "alice")
           (Running QueueEmpty) eq_refl).
Defined.

(** X8.  An active command is only ever the contestant's own: when
    [ask] resolves to SHOOT, DODGE or RELOAD, the contestant printed a
    line that decodes and strips to exactly that token; when it
    resolves to SHOOT_NO_BULLET, the line was shoot and the contestant
    had no bullet. *)
Theorem active_command_was_printed (self self' : Contestant) (o : AskObs)
    (c : Commands) :
  ask self o = Ok (c, self') ->
  c = SHOOT \/ c = DODGE \/ c = RELOAD \/ c = SHOOT_NO_BULLET ->
  exists l s,
    o = Running (QueueLine l) /\ decode l = Some s
    /\ strip s = value (match c with SHOOT_NO_BULLET => SHOOT | _ => c end)
    /\ (c = SHOOT_NO_BULLET -> bullets self = Some 0).
Proof.
  intros H Hc. pose proof (ask_effect _ _ _ _ H) as [_ E].
  apply ask_inv in H.
  destruct H as [[H _] | [(H & _) | (l & s & k & _ & Ho & Hd & K & Hk)]].
  - subst. destruct Hc as [? | [? | [? | ?]]]; discriminate.
  - subst. destruct Hc as [? | [? | [? | ?]]]; discriminate.
  - exists l, s. split; [exact Ho|]. split; [exact Hd|].
    destruct (check_command_cases s) as [E' | (k' & E' & Hs & Hk')];
      rewrite E' in K; inv K.
    split.
    + destruct Hk as [<- | [-> ->]]; [|exact Hs].
      destruct Hk' as [-> | [-> | ->]]; exact Hs.
    + intros ->. apply E.
Qed.

Lemma active_command_was_printed_witness :
  exists l s,
    says "dodge" = Running (QueueLine l) /\ decode l = Some s
    /\ strip s = value DODGE
    /\ (DODGE = SHOOT_NO_BULLET -> bullets (fresh "./a" "alice") = Some 0).
Proof.
  exact (active_command_was_printed (fresh "./a" "alice")
           (set_num_dodges (fresh "./a" "alice") 1) (says "dodge") DODGE
           eq_refl (or_intror (or_introl eq_refl))).
Defined.

(** X9.  A query never writes to the subprocess and never changes the
    arguments, the exited mark, the name or the recorded command; of
    the two counters it changes at most one, by exactly one, and the
    dodge count never goes down. *)
Theorem ask_changes_at_most_one_counter (self self' : Contestant)
    (o : AskObs) (c : Commands) :
  ask self o = Ok (c, self') ->
  call_args self' = call_args self
  /\ exited self' = exited self
  /\ process self' = process self
  /\ contestant_name self' = contestant_name self
  /\ latest_command self' = latest_command self
  /\ (self' = self
      \/ (exists n, bullets self = Some n
                    /\ (bullets self' = Some (n - 1)
                        \/ bullets self' = Some (n + 1))
                    /\ num_dodges self' = num_dodges self)
      \/ (exists d, num_dodges self = Some d
                    /\ num_dodges self' = Some (d + 1)
                    /\ bullets self' = bullets self)).
Proof.
  intros H. apply ask_effect in H. destruct H as [_ H].
  destruct c.
  - subst. repeat split; auto.
  - destruct H as (n & Hn & _ & ->). simpl.
    repeat split; auto. right. left. exists n. auto.
  - destruct H as (d & Hd & ->). simpl.
    repeat split; auto. right. right. exists d. auto.
  - destruct H as (n & Hn & [[_ ->] | [_ ->]]); simpl.
    + repeat split; auto.
    + repeat split; auto. right. left. exists n. auto.
  - destruct H as [-> _]. repeat split; auto.
  - subst. repeat split; auto.
Qed.

Lemma ask_changes_at_most_one_counter_witness :
  bullets (set_bullets (fresh "./a" "alice") 2) = Some 2
  /\ process (set_bullets (fresh "./a" "alice") 2)
     = process (fresh "./a" "alice").
Proof.
  destruct (ask_changes_at_most_one_counter (fresh "./a" "alice")
              (set_bullets (fresh "./a" "alice") 2) (says "reload") RELOAD
              eq_refl) as (_ & _ & Hp & _).
  split; [reflexivity|exact Hp].
Defined.

(** ** What can go wrong *)

(** For a contestant that [__init__] completed, [ask] raises only on a
    line that is not valid UTF-8. *)
Lemma ask_raises (self : Contestant) (o : AskObs) (e : exn) :
  ready self -> ask self o = Raise e ->
  e = UnicodeDecodeError
  /\ exists l, o = Running (QueueLine l) /\ decode l = None.
Proof.
  intros (p & n & d & Hp & Hb & Hd) H.
  assert (R : forall o', (forall l', o' <> Running (QueueLine l')) ->
                         ask self o' <> Raise e).
  { intros o' Ho' E'.
    destruct (ask_returns self p n d o' Hp Hb Hd) as (c & s' & E).
    - intros l' Hl. exfalso. apply (Ho' l' Hl).
    - congruence. }
  destruct o as [|[| |l]];
    try (exfalso; refine (R _ _ H); intros l' Hl; discriminate Hl).
  destruct (decode l) as [s|] eqn:Dl.
  - destruct (ask_returns self p n d (Running (QueueLine l)) Hp Hb Hd)
      as (c & s' & E).
    + intros l' Hl _. inv Hl. congruence.
    + rewrite E in H. discriminate H.
  - destruct (exited self) eqn:He.
    + unfold ask, is_alive in H. rewrite He, Hp in H. discriminate H.
    + unfold ask, is_alive, read in H. rewrite He, Hp in H. simpl in H.
      rewrite Dl in H. inv H. eauto.
Qed.


(** The exceptions of a turn, for use below. *)
Lemma loop_raises (state : State) (oa ob : AskObs) (wa wb : PipeObs)
    (e : exn) :
  ready (state_a state) -> ready (state_b state) ->
  loop state oa ob wa wb = Raise e ->
  (e = UnicodeDecodeError
   /\ exists l, decode l = None
                /\ (oa = Running (QueueLine l) \/ ob = Running (QueueLine l)))
  \/ (e = BrokenPipeError /\ (wa = PipeBroken \/ wb = PipeBroken)).
Proof.
  intros Ra Rb H.
  destruct (ask (state_a state) oa) as [[ca a1]|ea] eqn:Ha.
  - destruct (ask (state_b state) ob) as [[cb b1]|eb] eqn:Hb.
    + pose proof (loop_result state oa ob wa wb ca cb a1 b1 Ha Hb) as R.
      simpl in R.
      destruct (decisive ca cb); [rewrite R in H; discriminate H|].
      destruct wa, wb.
      * destruct R as (a3 & b3 & _ & _ & R). rewrite R in H. discriminate H.
      * rewrite R in H. inv H. right. auto.
      * rewrite R in H. inv H. right. auto.
      * rewrite R in H. inv H. right. auto.
    + unfold loop in H. rewrite Ha in H. simpl in H. rewrite Hb in H.
      simpl in H. inv H.
      destruct (ask_raises _ _ _ Rb Hb) as (Ee & l & Eo & Hl). left. eauto.
  - unfold loop in H. rewrite Ha in H. simpl in H. inv H.
    destruct (ask_raises _ _ _ Ra Ha) as (Ee & l & Eo & Hl). left. eauto.
Qed.

(** X10.  With both contestants constructed, a turn can raise two
    exceptions only: the decoding error, when one of the two lines read
    in that turn is not valid UTF-8, and the broken pipe of a delivery.
    With both pipes open the decoding error is the only one: a turn
    never fails on a missing attribute, on an unknown token or on the
    encoding of a command. *)
Theorem loop_raises_only_on_undecodable_line (state : State)
    (oa ob : AskObs) (wa wb : PipeObs) (e : exn) :
  ready (state_a state) -> ready (state_b state) ->
  loop state oa ob wa wb = Raise e ->
  (wa = PipeOpen -> wb = PipeOpen ->
   e = UnicodeDecodeError
   /\ exists l, decode l = None
                /\ (oa = Running (QueueLine l) \/ ob = Running (QueueLine l)))
  /\ ((e = UnicodeDecodeError
       /\ exists l, decode l = None
                    /\ (oa = Running (QueueLine l)
                        \/ ob = Running (QueueLine l)))
      \/ (e = BrokenPipeError /\ (wa = PipeBroken \/ wb = PipeBroken))).
Proof.
  intros Ra Rb H. pose proof (loop_raises _ _ _ _ _ _ Ra Rb H) as C.
  split; [|exact C].
  intros Wa Wb. destruct C as [C | (_ & [C | C])]; [exact C| |];
    congruence.
Qed.

Lemma loop_raises_only_on_undecodable_line_witness :
  UnicodeDecodeError = UnicodeDecodeError
  /\ exists l, decode l = None
               /\ (says "stand" = Running (QueueLine l)
                   \/ Running (QueueLine [xc3; x0a]) = Running (QueueLine l)).
Proof.
  apply (proj1 (loop_raises_only_on_undecodable_line state0 (says "stand")
                  (Running (QueueLine [xc3; x0a])) PipeOpen PipeOpen
                  UnicodeDecodeError
                  (ex_intro _ (mkProcess [])
                     (ex_intro _ 1 (ex_intro _ 0
                        (conj eq_refl (conj eq_refl eq_refl)))))
                  (ex_intro _ (mkProcess [])
                     (ex_intro _ 1 (ex_intro _ 0
                        (conj eq_refl (conj eq_refl eq_refl)))))
                  eq_refl));
    reflexivity.
Defined.







(** ** One turn, in full *)

Lemma token_line_value (c : Commands) (chunk : bytes) :
  encode (value c) = Some chunk -> token_line (value c) = chunk ++ [x0a].
Proof. unfold token_line. intros ->. reflexivity. Qed.

(** Everything a returning turn does to the state. *)
Lemma loop_step (state st1 : State) (oa ob : AskObs) (wa wb : PipeObs)
    (cont : bool) :
  loop state oa ob wa wb = Ok (cont, st1) ->
  exists ca cb a1 b1 pa pb,
    ask (state_a state) oa = Ok (ca, a1)
    /\ ask (state_b state) ob = Ok (cb, b1)
    /\ process a1 = Some pa /\ process b1 = Some pb
    /\ (decisive ca cb = true /\ cont = false
        /\ st1 = mkState (num_turn state)
                   (set_latest_command a1 (Some ca))
                   (set_latest_command b1 (Some cb))
                   (match verdict ca cb with
                    | Some k => Some k
                    | None => winner state
                    end)
                   (description state)
        \/ decisive ca cb = false
           /\ cont = negb (num_turn state + 1 >=? TOTAL_TURNS)
           /\ st1 = mkState (num_turn state + 1)
                      (set_process (set_latest_command a1 (Some ca))
                         (mkProcess (stdin pa ++ [token_line (value cb)])))
                      (set_process (set_latest_command b1 (Some cb))
                         (mkProcess (stdin pb ++ [token_line (value ca)])))
                      (winner state) (description state)).
Proof.
  intros H.
  destruct (loop_inv _ _ _ _ _ _ _ H) as (ca & a1 & cb & b1 & Ha & Hb).
  destruct (ask_frame _ _ _ _ Ha) as ((pa & _ & Hpa) & _).
  destruct (ask_frame _ _ _ _ Hb) as ((pb & _ & Hpb) & _).
  exists ca, cb, a1, b1, pa, pb. repeat (split; [assumption|]).
  pose proof (loop_result state oa ob wa wb ca cb a1 b1 Ha Hb) as R. simpl in R.
  destruct (decisive ca cb).
  - rewrite R in H. inv H. left. auto.
  - destruct wa, wb; try (rewrite R in H; discriminate H).
    destruct R as (a3 & b3 & Ta & Tb & R). rewrite R in H. inv H.
    apply tell_inv in Ta. destruct Ta as (pa' & ka & Hpa' & Ka & ->).
    apply tell_inv in Tb. destruct Tb as (pb' & kb & Hpb' & Kb & ->).
    simpl in Hpa', Hpb'.
    assert (pa' = pa) by congruence. assert (pb' = pb) by congruence. subst.
    rewrite (token_line_value _ _ Ka), (token_line_value _ _ Kb).
    right. auto.
Qed.

Section TurnFacts.

Variables (state : State) (oa ob : AskObs) (wa wb : PipeObs).
Variables (ca cb : Commands) (a1 b1 : Contestant).
Hypothesis Ha : ask (state_a state) oa = Ok (ca, a1).
Hypothesis Hb : ask (state_b state) ob = Ok (cb, b1).
Hypothesis Hw : winner state = None.

(** The winner of the turn is the one [verdict] names. *)
Lemma turn_winner (cont : bool) (state' : State) :
  loop state oa ob wa wb = Ok (cont, state') -> winner state' = verdict ca cb.
Proof.
  intros Hl.
  destruct (loop_step _ _ _ _ _ _ _ Hl)
    as (ca' & cb' & a1' & b1' & pa & pb & Ha' & Hb' & _ & _ & H).
  assert (ca' = ca) by congruence. assert (cb' = cb) by congruence. subst.
  destruct H as [(D & _ & ->) | (D & _ & ->)]; simpl.
  - rewrite Hw. destruct (verdict ca cb); reflexivity.
  - rewrite Hw. destruct ca, cb; try reflexivity; discriminate D.
Qed.

(** X12.  A contestant whose command resolves to DODGE, or to SHOOT
    (it had a bullet), does not lose the turn: the opponent is not made
    the winner, whatever the opponent did. *)
Theorem dodge_or_shot_is_safe (cont : bool) (state' : State) :
  loop state oa ob wa wb = Ok (cont, state') ->
  (ca = DODGE \/ ca = SHOOT -> winner state' <> Some KB)
  /\ (cb = DODGE \/ cb = SHOOT -> winner state' <> Some KA).
Proof.
  intros Hl. rewrite (turn_winner _ _ Hl). split.
  - intros [E | E]; rewrite E; destruct cb; discriminate.
  - intros [E | E]; rewrite E; destruct ca; discriminate.
Qed.

(** X13.  Without a bullet, a contestant wins a turn only through the
    opponent's forfeit: if A had no ammunition before the turn and is
    made the winner, B's command is GAME_OVER; and the same for B. *)
Theorem no_bullet_no_kill (cont : bool) (state' : State) :
  loop state oa ob wa wb = Ok (cont, state') ->
  (bullets (state_a state) = Some 0 -> winner state' = Some KA ->
   cb = GAME_OVER)
  /\ (bullets (state_b state) = Some 0 -> winner state' = Some KB ->
      ca = GAME_OVER).
Proof.
  intros Hl. rewrite (turn_winner _ _ Hl). split.
  - intros B0 V.
    assert (ca <> SHOOT).
    { intros ->. apply ask_effect in Ha. destruct Ha as (_ & n & Hn & Hz & _).
      congruence. }
    destruct ca, cb; try discriminate; try reflexivity; congruence.
  - intros B0 V.
    assert (cb <> SHOOT).
    { intros ->. apply ask_effect in Hb. destruct Hb as (_ & n & Hn & Hz & _).
      congruence. }
    destruct ca, cb; try discriminate; try reflexivity; congruence.
Qed.

End TurnFacts.

Lemma dodge_or_shot_is_safe_witness :
  exists cont state',
    loop state0 (says "dodge") (says "shoot") PipeOpen PipeOpen
    = Ok (cont, state')
    /\ winner state' <> Some KB.
Proof.
  destruct (loop state0 (says "dodge") (says "shoot") PipeOpen PipeOpen)
    as [[cont state']|e] eqn:L; [|discriminate L].
  exists cont, state'. split; [reflexivity|].
  apply (proj1 (dodge_or_shot_is_safe state0 (says "dodge")
                  (says "shoot") PipeOpen PipeOpen DODGE SHOOT
                  (set_num_dodges (fresh "./a" "alice") 1)
                  (set_bullets (fresh "./b" "bob") 0)
                  eq_refl eq_refl eq_refl cont state' L)).
  left. reflexivity.
Defined.

Lemma no_bullet_no_kill_witness :
  exists cont state',
    loop (set_a state0 (set_bullets (fresh "./a" "alice") 0))
         (says "shoot") (Running QueueEmpty) PipeOpen PipeOpen
    = Ok (cont, state')
    /\ (winner state' = Some KA -> GAME_OVER = GAME_OVER).
Proof.
  destruct (loop (set_a state0 (set_bullets (fresh "./a" "alice") 0))
                 (says "shoot") (Running QueueEmpty) PipeOpen PipeOpen)
    as [[cont state']|e] eqn:L; [|discriminate L].
  exists cont, state'. split; [reflexivity|].
  apply (proj1 (no_bullet_no_kill
                  (set_a state0 (set_bullets (fresh "./a" "alice") 0))
                  (says "shoot") (Running QueueEmpty) PipeOpen PipeOpen
                  SHOOT_NO_BULLET GAME_OVER
                  (set_bullets (fresh "./a" "alice") 0) (fresh "./b" "bob")
                  eq_refl eq_refl eq_refl cont state' L)).
  reflexivity.
Defined.

(** X14.  What a turn does to a contestant's counters and recorded
    command depends on that contestant's own line only: with the same
    state and the same observation of A, two turns that differ in what
    B did leave A's ammunition, dodge count and command the same; and
    the same for B. *)
Theorem counters_depend_on_own_line (state : State) (oa ob oa' ob' : AskObs)
    (wa wb wa' wb' wa'' wb'' : PipeObs)
    (c1 c2 c3 : bool) (s1 s2 s3 : State) :
  loop state oa ob wa wb = Ok (c1, s1) ->
  (loop state oa ob' wa' wb' = Ok (c2, s2) ->
   bullets (state_a s1) = bullets (state_a s2)
   /\ num_dodges (state_a s1) = num_dodges (state_a s2)
   /\ latest_command (state_a s1) = latest_command (state_a s2))
  /\ (loop state oa' ob wa'' wb'' = Ok (c3, s3) ->
      bullets (state_b s1) = bullets (state_b s3)
      /\ num_dodges (state_b s1) = num_dodges (state_b s3)
      /\ latest_command (state_b s1) = latest_command (state_b s3)).
Proof.
  intros H1.
  destruct (loop_step _ _ _ _ _ _ _ H1)
    as (ca & cb & a1 & b1 & pa & pb & Ha & Hb & _ & _ & E1).
  split; intros H2;
    destruct (loop_step _ _ _ _ _ _ _ H2)
      as (ca' & cb' & a1' & b1' & pa' & pb' & Ha' & Hb' & _ & _ & E2).
  - assert (ca' = ca /\ a1' = a1) as [-> ->] by (split; congruence).
    destruct E1 as [(_ & _ & ->) | (_ & _ & ->)];
      destruct E2 as [(_ & _ & ->) | (_ & _ & ->)]; simpl; auto.
  - assert (cb' = cb /\ b1' = b1) as [-> ->] by (split; congruence).
    destruct E1 as [(_ & _ & ->) | (_ & _ & ->)];
      destruct E2 as [(_ & _ & ->) | (_ & _ & ->)]; simpl; auto.
Qed.

Lemma counters_depend_on_own_line_witness :
  exists c1 s1 c2 s2,
    loop state0 (says "reload") (says "dodge") PipeOpen PipeOpen
    = Ok (c1, s1)
    /\ loop state0 (says "reload") (says "shoot") PipeOpen PipeOpen
       = Ok (c2, s2)
    /\ bullets (state_a s1) = bullets (state_a s2).
Proof.
  destruct (loop state0 (says "reload") (says "dodge") PipeOpen PipeOpen)
    as [[c1 s1]|e] eqn:L1; [|discriminate L1].
  destruct (loop state0 (says "reload") (says "shoot") PipeOpen PipeOpen)
    as [[c2 s2]|e] eqn:L2; [|discriminate L2].
  exists c1, s1, c2, s2. split; [reflexivity|]. split; [reflexivity|].
  apply (proj1 (counters_depend_on_own_line state0 (says "reload")
                  (says "dodge") (says "reload") (says "shoot")
                  PipeOpen PipeOpen PipeOpen PipeOpen PipeOpen PipeOpen
                  c1 c2 c2 s1 s2 s2 L1) L2).
Defined.

(** ** The match as a sequence of turns *)

Lemma write_to_ui_queue_app (state : State) (q q' : list Snapshot) :
  write_to_ui_queue state q = Ok q' ->
  exists s, q' = q ++ [s] /\ write_to_ui_queue state [] = Ok [s].
Proof.
  unfold write_to_ui_queue.
  destruct (view (state_a state)) as [va|]; [|discriminate]. simpl.
  destruct (view (state_b state)) as [vb|]; [|discriminate]. simpl.
  intros H; inv H. eauto.
Qed.

(** A run of the loop that reaches its [break] is a sequence of turns
    in the sense of [plays]. *)
Lemma play_plays (fuel : nat) :
  forall (state state' : State) (obs : nat -> AskObs * AskObs)
  (pipes : nat -> PipeObs * PipeObs) (coin : Key)
         (q q' : list Snapshot),
    play fuel state obs pipes coin q = Some (Ok (q', state')) ->
    exists new, q' = q ++ new /\ plays coin state new state'.
Proof.
  induction fuel as [|fuel IH]; intros state state' obs pipes coin q q' H;
    simpl in H; [discriminate|].
  destruct (loop state (fst (obs O)) (snd (obs O))
              (fst (pipes O)) (snd (pipes O))) as [[cont st1]|e] eqn:L;
    [|discriminate].
  destruct cont; simpl in H.
  - destruct (write_to_ui_queue st1 q) as [q1|] eqn:W; [|discriminate].
    apply write_to_ui_queue_app in W. destruct W as (s & -> & W).
    apply IH in H. destruct H as (rest & -> & P).
    exists (s :: rest). split.
    + rewrite <- app_assoc. reflexivity.
    + eapply plays_continue; eauto.
  - destruct (finish st1 coin) as [st2|] eqn:F; [|discriminate].
    destruct (write_to_ui_queue st2 q) as [q1|] eqn:W; [|discriminate].
    inv H. apply write_to_ui_queue_app in W. destruct W as (s & -> & W).
    exists [s]. split; [reflexivity|]. eapply plays_break; eauto.
Qed.

Lemma game_plays (fuel : nat) (args_a args_b : list str) (oa ob : StartObs)
(log : LogObs)
    (obs : nat -> AskObs * AskObs)
    (pipes : nat -> PipeObs * PipeObs) (coin : Key) (q : list Snapshot)
    (state' : State) :
  game fuel args_a args_b oa ob log obs pipes coin = Some (Ok (q, state')) ->
  exists state,
    snd (setup args_a args_b oa ob log) = Ok state /\ plays coin state q state'.
Proof.
  unfold game.
  destruct (snd (setup args_a args_b oa ob log)) as [state|] eqn:S;
    [|discriminate].
  intros H. apply play_plays in H. destruct H as (new & -> & P).
  exists state. auto.
Qed.

(** The snapshot of a state. *)
Lemma snapshot_inv (state : State) (s : Snapshot) :
  write_to_ui_queue state [] = Ok [s] ->
  exists na nb ca cb da db,
    bullets (state_a state) = Some na /\ bullets (state_b state) = Some nb
    /\ latest_command (state_a state) = Some (Some ca)
    /\ latest_command (state_b state) = Some (Some cb)
    /\ num_dodges (state_a state) = Some da
    /\ num_dodges (state_b state) = Some db
    /\ s = mkSnapshot (num_turn state)
             (match description state with
              | Some d => d
              | None => lit "un truc au pif"
              end)
             (mkView (name (state_a state)) na (value ca) da)
             (mkView (name (state_b state)) nb (value cb) db)
             (winner state).
Proof.
  unfold write_to_ui_queue.
  destruct (view (state_a state)) as [va|] eqn:Va; [|discriminate].
  destruct (view (state_b state)) as [vb|] eqn:Vb; [|discriminate].
  simpl. intros H; inv H.
  apply view_inv in Va. destruct Va as (na & ca & da & ? & ? & ? & ->).
  apply view_inv in Vb. destruct Vb as (nb & cb & db & ? & ? & ? & ->).
  exists na, nb, ca, cb, da, db. repeat split; auto.
Qed.

(** [finish] leaves the turn counter and the contestants alone. *)
Lemma finish_frame (state state' : State) (coin : Key) :
  finish state coin = Ok state' ->
  num_turn state' = num_turn state
  /\ state_a state' = state_a state /\ state_b state' = state_b state.
Proof.
  intros H. apply finish_inv in H. destruct H as (w & d & -> & _).
  simpl. auto.
Qed.

(** The turn counter along a match that starts below the limit. *)
Lemma plays_counter (coin : Key) (state state' : State)
    (new : list Snapshot) :
  plays coin state new state' ->
  0 <= num_turn state < TOTAL_TURNS ->
  num_turn state + Z.of_nat (List.length new) <= TOTAL_TURNS
  /\ (forall i s, nth_error new i = Some s -> (S i < List.length new)%nat ->
                  snap_num_turn s = num_turn state + Z.of_nat i + 1)
  /\ num_turn state + Z.of_nat (List.length new) - 1 <= num_turn state'
     <= num_turn state + Z.of_nat (List.length new)
  /\ snap_num_turn (last new (mkSnapshot 0 [] (mkView None 0 [] 0)
                                         (mkView None 0 [] 0) None))
     = num_turn state'.
Proof.
  induction 1 as [state oa ob wa wb st1 st2 s L F W
                 | state oa ob wa wb st1 s rest state' L W P IH]; intros Hn.
  - destruct (loop_summary _ _ _ _ _ _ _ L) as (ca & cb & _ & _ & _ & HD & HN).
    destruct (finish_frame _ _ _ F) as (Fn & _).
    destruct (write_to_ui_queue_inv _ _ _ W) as (s' & E & Sn & _).
    inv E. simpl List.length. simpl last.
    assert (num_turn state <= num_turn st1 <= num_turn state + 1).
    { destruct (decisive ca cb).
      - destruct (HD eq_refl) as [_ ->]. lia.
      - destruct (HN eq_refl) as (_ & -> & _). lia. }
    split; [lia|]. split; [intros i s Hi Hlt; simpl in Hlt; lia|].
    split; [lia|]. lia.
  - destruct (loop_summary _ _ _ _ _ _ _ L) as (ca & cb & _ & _ & _ & HD & HN).
    destruct (decisive ca cb).
    { destruct (HD eq_refl). discriminate. }
    destruct (HN eq_refl) as (Hc & Hn1 & _).
    symmetry in Hc. rewrite negb_true_iff, Z.geb_leb, Z.leb_gt in Hc.
    destruct (write_to_ui_queue_inv _ _ _ W) as (s' & E & Sn & _).
    inv E.
    destruct IH as (I1 & I2 & I3 & I4); [lia|].
    simpl List.length. rewrite Nat2Z.inj_succ.
    split; [lia|]. split; [|split; [lia|]].
    + intros [|i] x Hi Hlt; simpl in Hi.
      * inv Hi. rewrite Sn, Hn1. lia.
      * simpl in Hlt. rewrite (I2 i x Hi) by lia. rewrite Nat2Z.inj_succ. lia.
    + assert (rest <> []) by (inversion P; discriminate).
      destruct rest as [|r rest']; [congruence|]. exact I4.
Qed.

(** The state that [setup] returns, in full. *)
Lemma setup_ok (args_a args_b : list str) (oa ob : StartObs)
(log : LogObs) (state : State) :
  snd (setup args_a args_b oa ob log) = Ok state ->
  exists na nb,
    starts_well oa na /\ starts_well ob nb
    /\ state = mkState 0 (started args_a na) (started args_b nb) None None.
Proof.
  assert (I : forall args o c out,
             init args (spawn o) (first_line o) = Ok (c, out) ->
             exited c = false -> still_running o = true ->
             exists nm, starts_well o nm /\ c = started args nm).
  { intros args [so ro sr] c out Hi He Hr. simpl in *. subst sr.
    unfold init in Hi. destruct so; simpl in Hi;
      try (inv Hi; discriminate He).
    unfold read_name, read in Hi. simpl in Hi.
    destruct ro as [| |l]; simpl in Hi; try (inv Hi; discriminate He).
    destruct (decode l) as [s|] eqn:D; [|discriminate].
    destruct (strip s) as [|x nm] eqn:S; simpl in Hi; inv Hi;
      [discriminate He|].
    exists (x :: nm). split; [|reflexivity].
    exists l, s. repeat split; auto. discriminate. }
  unfold setup.
  destruct (init args_a (spawn oa) (first_line oa)) as [[a out_a]|] eqn:Ia;
    [|discriminate].
  destruct (init args_b (spawn ob) (first_line ob)) as [[b out_b]|] eqn:Ib;
    [|discriminate].
  simpl. unfold is_alive.
  destruct (exited a) eqn:Ea; simpl; [discriminate|].
  destruct (process a); simpl; [|discriminate].
  destruct (still_running oa) eqn:Sa; simpl; [|discriminate].
  destruct (exited b) eqn:Eb; simpl; [discriminate|].
  destruct (process b); simpl; [|discriminate].
  destruct (still_running ob) eqn:Sb; simpl; [|discriminate].
  destruct log; simpl; [|discriminate].
  intros H; inv H.
  destruct (I _ _ _ _ Ia Ea Sa) as (na & Wa & ->).
  destruct (I _ _ _ _ Ib Eb Sb) as (nb & Wb & ->).
  exists na, nb. auto.
Qed.

(** [setup] returns a state only if the log file opened. *)
Lemma setup_ok_log (args_a args_b : list str) (oa ob : StartObs)
    (log : LogObs) (state : State) :
  snd (setup args_a args_b oa ob log) = Ok state -> log = LogOpened.
Proof.
  destruct log; [reflexivity|].
  intros H. exfalso.
  unfold setup in H.
  destruct (init args_a (spawn oa) (first_line oa)) as [[a out_a]|];
    [|discriminate].
  destruct (init args_b (spawn ob) (first_line ob)) as [[b out_b]|];
    [|discriminate].
  simpl in H.
  destruct (is_alive a (still_running oa)) as [[|]|]; simpl in H;
    try discriminate.
  destruct (is_alive b (still_running ob)) as [[|]|]; simpl in H;
    discriminate.
Qed.

(** X15.  A match puts between one and one hundred snapshots on the
    queue, one per turn; the snapshot of the i-th turn that did not end
    the match reports turn number i; the last snapshot reports the
    final turn counter, which is the number of snapshots or one less
    and never exceeds TOTAL_TURNS. *)
Theorem game_length (fuel : nat) (args_a args_b : list str)
    (oa ob : StartObs) (log : LogObs) (obs : nat -> AskObs * AskObs)
    (pipes : nat -> PipeObs * PipeObs) (coin : Key)
    (q : list Snapshot) (state' : State) :
  game fuel args_a args_b oa ob log obs pipes coin = Some (Ok (q, state')) ->
  (1 <= List.length q <= 100)%nat
  /\ (forall i s, nth_error q i = Some s -> (S i < List.length q)%nat ->
                  snap_num_turn s = Z.of_nat i + 1)
  /\ (exists mid final,
         q = mid ++ [final] /\ snap_num_turn final = num_turn state')
  /\ Z.of_nat (List.length q) - 1 <= num_turn state' <= Z.of_nat (List.length q)
  /\ num_turn state' <= TOTAL_TURNS.
Proof.
  intros H. apply game_plays in H. destruct H as (state & S & P).
  apply setup_inv in S. destruct S as (H0 & _).
  destruct (plays_counter _ _ _ _ P) as (I1 & I2 & I3 & I4).
  { rewrite H0. unfold TOTAL_TURNS. lia. }
  rewrite H0 in *. unfold TOTAL_TURNS in *.
  assert (Hq : q <> []) by (inversion P; discriminate).
  split; [|split; [|split; [|split]]].
  - destruct q; [congruence|]. simpl List.length in *. lia.
  - intros i s Hi Hlt. rewrite (I2 i s Hi Hlt). lia.
  - destruct (exists_last Hq) as (mid & final & ->).
    exists mid, final. split; [reflexivity|].
    rewrite last_last in I4. exact I4.
  - lia.
  - lia.
Qed.

Lemma game_length_witness :
  exists q state',
    game 100 [lit "./a"] [lit "./b"] (good_start "alice") (good_start "bob")
    LogOpened
         two_turns delivered KA
    = Some (Ok (q, state'))
    /\ (1 <= List.length q <= 100)%nat
    /\ num_turn state' <= TOTAL_TURNS.
Proof.
  destruct (game 100 [lit "./a"] [lit "./b"] (good_start "alice")
              (good_start "bob") LogOpened two_turns delivered KA)
    as [[[q state']|e]|] eqn:G; try (vm_compute in G; discriminate G).
  destruct (game_length 100 [lit "./a"] [lit "./b"]
              (good_start "alice") (good_start "bob")
              LogOpened two_turns delivered KA q state' G)
    as (L & _ & _ & _ & N).
  exists q, state'. auto.
Defined.

(** X16.  [setup] returns a state exactly when both programs are
    spawned, each prints a first line that decodes to a name that is
    not blank, each is still running at the check, and the log file
    named after the two names opens; the state is then turn 0 with no
    winner and no description, and each contestant has one bullet, no
    dodge, an empty stdin log, and the stripped first line as its
    name. *)
Theorem setup_succeeds_iff (args_a args_b : list str) (oa ob : StartObs)
    (log : LogObs) (state : State) :
  snd (setup args_a args_b oa ob log) = Ok state
  <-> exists na nb,
      starts_well oa na /\ starts_well ob nb
      /\ setup_logging (Some na) (Some nb) log
         = Ok (na ++ lit "-vs-" ++ nb ++ lit ".log")
      /\ state = mkState 0 (started args_a na) (started args_b nb) None None.
Proof.
  split.
  - intros H. pose proof (setup_ok_log _ _ _ _ _ _ H) as ->.
    apply setup_ok in H. destruct H as (na & nb & Wa & Wb & ->).
    exists na, nb. repeat split; auto.
  - intros (na & nb & (la & sa & -> & Da & Sa & Na)
            & (lb & sb & -> & Db & Sb & Nb) & Hlog & ->).
    destruct log; [|discriminate Hlog].
    unfold setup, init. simpl. unfold read_name, read. simpl.
    rewrite Da, Db, Sa, Sb.
    destruct na; [congruence|]. destruct nb; [congruence|]. reflexivity.
Qed.

(** What a snapshot shows of the state it was taken from. *)
Lemma snapshot_facts (state : State) (s : Snapshot) (ca cb : Commands) :
  write_to_ui_queue state [] = Ok [s] ->
  latest_command (state_a state) = Some (Some ca) ->
  latest_command (state_b state) = Some (Some cb) ->
  view_command (snap_a s) = value ca
  /\ view_command (snap_b s) = value cb
  /\ snap_decisive s = decisive ca cb
  /\ snap_num_turn s = num_turn state
  /\ snap_winner_key s = winner state
  /\ bullets (state_a state) = Some (view_bullets (snap_a s))
  /\ bullets (state_b state) = Some (view_bullets (snap_b s))
  /\ num_dodges (state_a state) = Some (view_num_dodges (snap_a s))
  /\ num_dodges (state_b state) = Some (view_num_dodges (snap_b s)).
Proof.
  intros W La Lb. apply snapshot_inv in W.
  destruct W as (na & nb & ca' & cb' & da & db & Hna & Hnb & La' & Lb'
                 & Hda & Hdb & ->).
  assert (ca' = ca) by congruence. assert (cb' = cb) by congruence. subst.
  unfold snap_decisive. simpl. rewrite !Commands_of_value.
  repeat split; auto.
Qed.

Lemma process_eta (p : Process) : mkProcess (stdin p ++ []) = p.
Proof. destruct p. simpl. rewrite app_nil_r. reflexivity. Qed.

(** What the two subprocesses were told, along a match. *)
Lemma plays_told (coin : Key) (state state' : State) (new : list Snapshot) :
  plays coin state new state' ->
  forall pa pb,
    process (state_a state) = Some pa -> process (state_b state) = Some pb ->
    process (state_a state')
    = Some (mkProcess
              (stdin pa
               ++ map (fun s => token_line (view_command (snap_b s)))
                      (filter non_decisive new)))
    /\ process (state_b state')
       = Some (mkProcess
                 (stdin pb
                  ++ map (fun s => token_line (view_command (snap_a s)))
                         (filter non_decisive new)))
    /\ num_turn state'
       = num_turn state
         + Z.of_nat (List.length (filter non_decisive new)).
Proof.
  induction 1 as [state oa ob wa wb st1 st2 s L F W
                 | state oa ob wa wb st1 s rest state' L W P IH];
    intros pa pb Hpa Hpb.
  - destruct (loop_step _ _ _ _ _ _ _ L)
      as (ca & cb & a1 & b1 & pa' & pb' & Ha & Hb & Hpa' & Hpb' & E).
    destruct (ask_frame _ _ _ _ Ha) as ((p & Hp & Hp') & _).
    assert (pa' = pa) by congruence. clear p Hp Hp'.
    destruct (ask_frame _ _ _ _ Hb) as ((p & Hp & Hp') & _).
    assert (pb' = pb) by congruence. clear p Hp Hp'. subst pa' pb'.
    destruct (finish_frame _ _ _ F) as (Fn & Fa & Fb).
    assert (La : latest_command (state_a st2) = Some (Some ca)).
    { rewrite Fa. destruct E as [(_ & _ & ->) | (_ & _ & ->)]; reflexivity. }
    assert (Lb : latest_command (state_b st2) = Some (Some cb)).
    { rewrite Fb. destruct E as [(_ & _ & ->) | (_ & _ & ->)]; reflexivity. }
    destruct (snapshot_facts _ _ _ _ W La Lb) as (Va & Vb & Sd & _).
    rewrite Fn, Fa, Fb.
    change (filter non_decisive [s])
      with (if negb (snap_decisive s) then [s] else []).
    rewrite Sd.
    destruct E as [(D & _ & ->) | (D & _ & ->)]; rewrite D; simpl.
    + rewrite !process_eta. repeat split; auto. lia.
    + rewrite Va, Vb. repeat split; auto.
  - destruct (loop_step _ _ _ _ _ _ _ L)
      as (ca & cb & a1 & b1 & pa' & pb' & Ha & Hb & Hpa' & Hpb' & E).
    destruct (ask_frame _ _ _ _ Ha) as ((p & Hp & Hp') & _).
    assert (pa' = pa) by congruence. clear p Hp Hp'.
    destruct (ask_frame _ _ _ _ Hb) as ((p & Hp & Hp') & _).
    assert (pb' = pb) by congruence. clear p Hp Hp'. subst pa' pb'.
    destruct E as [(_ & C & _) | (D & _ & E)]; [discriminate C|].
    assert (La : latest_command (state_a st1) = Some (Some ca))
      by (rewrite E; reflexivity).
    assert (Lb : latest_command (state_b st1) = Some (Some cb))
      by (rewrite E; reflexivity).
    destruct (snapshot_facts _ _ _ _ W La Lb) as (Va & Vb & Sd & _).
    destruct (IH (mkProcess (stdin pa ++ [token_line (value cb)]))
                 (mkProcess (stdin pb ++ [token_line (value ca)])))
      as (I1 & I2 & I3); try (rewrite E; reflexivity).
    rewrite I1, I2, I3.
    change (filter non_decisive (s :: rest))
      with (if negb (snap_decisive s) then s :: filter non_decisive rest
            else filter non_decisive rest).
    rewrite Sd, D. cbn [negb map List.length stdin].
    rewrite Va, Vb, <- !app_assoc. cbn [app].
    repeat split; auto. rewrite E. cbn [num_turn].
    rewrite Nat2Z.inj_succ. lia.
Qed.

(** X17.  During a match each contestant is told exactly the
    opponent's resolved command of every counted turn, in order, one
    line per turn, and nothing on a turn that decides the match: at the
    end the stdin log of A is the list of B's command tokens over the
    non-decisive snapshots, the log of B is the list of A's, and both
    have as many lines as the final turn counter. *)
Theorem contestants_are_told_each_counted_turn (fuel : nat)
    (args_a args_b : list str) (oa ob : StartObs) (log : LogObs)
    (obs : nat -> AskObs * AskObs)
    (pipes : nat -> PipeObs * PipeObs) (coin : Key)
    (q : list Snapshot) (state' : State) :
  game fuel args_a args_b oa ob log obs pipes coin = Some (Ok (q, state')) ->
  exists pa pb,
    process (state_a state') = Some pa
    /\ process (state_b state') = Some pb
    /\ stdin pa = map (fun s => token_line (view_command (snap_b s)))
                      (filter non_decisive q)
    /\ stdin pb = map (fun s => token_line (view_command (snap_a s)))
                      (filter non_decisive q)
    /\ Z.of_nat (List.length (stdin pa)) = num_turn state'
    /\ Z.of_nat (List.length (stdin pb)) = num_turn state'.
Proof.
  intros H. apply game_plays in H. destruct H as (state & S & P).
  apply setup_ok in S. destruct S as (na & nb & _ & _ & ->).
  destruct (plays_told _ _ _ _ P (mkProcess []) (mkProcess []) eq_refl eq_refl)
    as (I1 & I2 & I3).
  simpl in I1, I2, I3.
  eexists _, _. split; [exact I1|]. split; [exact I2|]. simpl.
  rewrite !length_map. repeat split; auto.
Qed.

Lemma contestants_are_told_each_counted_turn_witness :
  exists q state' pa,
    game 100 [lit "./a"] [lit "./b"] (good_start "alice") (good_start "bob")
    LogOpened
         two_turns delivered KA
    = Some (Ok (q, state'))
    /\ process (state_a state') = Some pa
    /\ stdin pa = map (fun s => token_line (view_command (snap_b s)))
                      (filter non_decisive q).
Proof.
  destruct (game 100 [lit "./a"] [lit "./b"] (good_start "alice")
              (good_start "bob") LogOpened two_turns delivered KA)
    as [[[q state']|e]|] eqn:G; try (vm_compute in G; discriminate G).
  destruct (contestants_are_told_each_counted_turn 100 [lit "./a"] [lit "./b"]
              (good_start "alice") (good_start "bob")
              LogOpened two_turns delivered KA q state' G)
    as (pa & pb & Hpa & _ & Ha & _).
  exists q, state', pa. auto.
Defined.

(** The last turn of a match. *)
Lemma plays_last (coin : Key) (state state' : State) (new : list Snapshot) :
  plays coin state new state' ->
  winner state = None ->
  exists st st1 oa ob wa wb mid final,
    new = mid ++ [final]
    /\ winner st = None
    /\ loop st oa ob wa wb = Ok (false, st1)
    /\ finish st1 coin = Ok state'
    /\ write_to_ui_queue state' [] = Ok [final].
Proof.
  induction 1 as [state oa ob wa wb st1 st2 s L F W
                 | state oa ob wa wb st1 s rest state' L W P IH]; intros Hw.
  - exists state, st1, oa, ob, wa, wb, [], s. auto.
  - destruct (loop_step _ _ _ _ _ _ _ L)
      as (ca & cb & a1 & b1 & pa & pb & _ & _ & _ & _ & E).
    destruct E as [(_ & C & _) | (_ & _ & E)]; [discriminate C|].
    destruct IH as (st & st1' & oa' & ob' & wa' & wb' & mid & final & -> & R).
    { rewrite E. exact Hw. }
    exists st, st1', oa', ob', wa', wb', (s :: mid), final. auto.
Qed.

(** What [finish] decides. *)
Lemma finish_cases (state state' : State) (coin : Key) :
  finish state coin = Ok state' ->
  match winner state with
  | Some k =>
    winner state' = Some k
    /\ description state'
       = Some (fmt (name (contestant state' k)) ++ lit " wins")
  | None =>
    exists da db,
      num_dodges (state_a state) = Some da
      /\ num_dodges (state_b state) = Some db
      /\ (da < db -> winner state' = Some KA)
      /\ (db < da -> winner state' = Some KB)
      /\ (da = db -> winner state' = Some coin)
  end.
Proof.
  unfold finish. destruct (winner state) as [k|].
  - intros H; inv H. destruct k; simpl; auto.
  - destruct (num_dodges (state_a state)) as [da|]; [|discriminate].
    destruct (num_dodges (state_b state)) as [db|]; [|discriminate].
    simpl. intros H. exists da, db. split; [reflexivity|].
    split; [reflexivity|].
    destruct (Z.eqb_spec (da - db) 0) as [E|E]; simpl in H.
    + inv H. simpl. repeat split; intros; try lia; reflexivity.
    + destruct (Z.ltb_spec (da - db) 0) as [L|L]; simpl in H.
      * inv H. simpl. repeat split; intros; try lia; reflexivity.
      * destruct (Z.gtb_spec (da - db) 0) as [G|G]; simpl in H;
          [|discriminate].
        inv H. simpl. repeat split; intros; try lia; reflexivity.
Qed.

(** X18.  The outcome of a match can be read off its last snapshot.
    If the last turn names a winner (the other side of a single
    forfeit, or the side whose shot lands), that contestant is the
    final winner and the description is its name followed by " wins".
    Otherwise (double forfeit, or the turn limit) the winner is the
    contestant with strictly fewer dodges in that snapshot, or the
    drawn one when the counts are equal.  The snapshot shows that
    winner. *)
Theorem game_outcome (fuel : nat) (args_a args_b : list str)
    (oa ob : StartObs) (log : LogObs) (obs : nat -> AskObs * AskObs)
    (pipes : nat -> PipeObs * PipeObs) (coin : Key)
    (q : list Snapshot) (state' : State) :
  game fuel args_a args_b oa ob log obs pipes coin = Some (Ok (q, state')) ->
  exists mid final ca cb,
    q = mid ++ [final]
    /\ view_command (snap_a final) = value ca
    /\ view_command (snap_b final) = value cb
    /\ snap_winner_key final = winner state'
    /\ match verdict ca cb with
       | Some k =>
         winner state' = Some k
         /\ snap_description final
            = fmt (name (contestant state' k)) ++ lit " wins"
       | None =>
         let da := view_num_dodges (snap_a final) in
         let db := view_num_dodges (snap_b final) in
         (da < db -> winner state' = Some KA)
         /\ (db < da -> winner state' = Some KB)
         /\ (da = db -> winner state' = Some coin)
       end.
Proof.
  intros H. apply game_plays in H. destruct H as (state & S & P).
  apply setup_inv in S. destruct S as (_ & Hw & _).
  destruct (plays_last _ _ _ _ P Hw)
    as (st & st1 & oa' & ob' & wa' & wb' & mid & final & -> & Hw' & L & F & W).
  destruct (loop_step _ _ _ _ _ _ _ L)
    as (ca & cb & a1 & b1 & pa & pb & Ha & Hb & _ & _ & E).
  destruct (finish_frame _ _ _ F) as (_ & Fa & Fb).
  assert (La : latest_command (state_a state') = Some (Some ca)).
  { rewrite Fa. destruct E as [(_ & _ & ->) | (_ & _ & ->)]; reflexivity. }
  assert (Lb : latest_command (state_b state') = Some (Some cb)).
  { rewrite Fb. destruct E as [(_ & _ & ->) | (_ & _ & ->)]; reflexivity. }
  destruct (snapshot_facts _ _ _ _ W La Lb)
    as (Va & Vb & _ & _ & Sw & _ & _ & Da & Db).
  assert (Sd : snap_description final
               = match description state' with
                 | Some d => d
                 | None => lit "un truc au pif"
                 end).
  { apply snapshot_inv in W.
    destruct W as (? & ? & ? & ? & ? & ? & _ & _ & _ & _ & _ & _ & ->).
    reflexivity. }
  exists mid, final, ca, cb. repeat (split; [assumption || reflexivity|]).
  assert (W1 : winner st1 = match verdict ca cb with
                            | Some k => Some k
                            | None => None
                            end).
  { destruct E as [(_ & _ & ->) | (D & _ & ->)]; simpl; rewrite Hw'.
    - reflexivity.
    - destruct ca, cb; try reflexivity; discriminate D. }
  pose proof (finish_cases _ _ _ F) as C. rewrite W1 in C.
  destruct (verdict ca cb) as [k|].
  - destruct C as [Cw Cd]. split; [exact Cw|]. rewrite Sd, Cd. reflexivity.
  - destruct C as (da & db & Hda & Hdb & C).
    rewrite <- Fa, Da in Hda. rewrite <- Fb, Db in Hdb.
    inv Hda. inv Hdb. exact C.
Qed.

Lemma game_outcome_witness :
  exists q state' final,
    game 100 [lit "./a"] [lit "./b"] (good_start "alice") (good_start "bob")
    LogOpened
         two_turns delivered KA
    = Some (Ok (q, state'))
    /\ snap_winner_key final = winner state'.
Proof.
  destruct (game 100 [lit "./a"] [lit "./b"] (good_start "alice")
              (good_start "bob") LogOpened two_turns delivered KA)
    as [[[q state']|e]|] eqn:G; try (vm_compute in G; discriminate G).
  destruct (game_outcome 100 [lit "./a"] [lit "./b"]
              (good_start "alice") (good_start "bob")
              LogOpened two_turns delivered KA q state' G)
    as (mid & final & ca & cb & _ & _ & _ & Hw & _).
  exists q, state', final. auto.
Defined.

(** ** Counters in the snapshots *)

Lemma ask_counters (c c' : Contestant) (o : AskObs) (cmd : Commands)
    (limit : Z) :
  ask c o = Ok (cmd, c') -> counters_within limit c ->
  counters_within (limit + 1) c'.
Proof.
  intros H (n & d & Hn & Hd & Bn & Bd).
  apply ask_effect in H. destruct H as [_ H]. unfold counters_within.
  unfold MAX_BULLETS in *.
  destruct cmd.
  - subst. exists n, d. repeat split; auto; lia.
  - destruct H as (m & Hm & Hz & ->). simpl.
    assert (m = n) by congruence. subst.
    exists (n - 1), d. repeat split; auto; lia.
  - destruct H as (m & Hm & ->). simpl.
    assert (m = d) by congruence. subst.
    exists n, (d + 1). repeat split; auto; lia.
  - destruct H as (m & Hm & [[_ ->] | [Hne ->]]).
    + exists n, d. repeat split; auto; lia.
    + simpl. assert (m = n) by congruence. subst.
      exists (n + 1), d. repeat split; auto; lia.
  - destruct H as [-> _]. exists n, d. repeat split; auto; lia.
  - subst. exists n, d. repeat split; auto; lia.
Qed.

Lemma loop_counters (state st1 : State) (oa ob : AskObs) (wa wb : PipeObs)
    (cont : bool)
    (limit : Z) :
  loop state oa ob wa wb = Ok (cont, st1) ->
  counters_within limit (state_a state) ->
  counters_within limit (state_b state) ->
  counters_within (limit + 1) (state_a st1)
  /\ counters_within (limit + 1) (state_b st1)
  /\ num_turn state <= num_turn st1
  /\ (cont = true -> num_turn st1 = num_turn state + 1).
Proof.
  intros L Ca Cb.
  destruct (loop_step _ _ _ _ _ _ _ L)
    as (ca & cb & a1 & b1 & pa & pb & Ha & Hb & _ & _ & E).
  pose proof (ask_counters _ _ _ _ _ Ha Ca) as Ca1.
  pose proof (ask_counters _ _ _ _ _ Hb Cb) as Cb1.
  destruct E as [(_ & C & ->) | (_ & C & ->)]; simpl;
    (split; [exact Ca1|]; split; [exact Cb1|]; split; [lia|]).
  - intros E. congruence.
  - reflexivity.
Qed.

Lemma plays_range (coin : Key) (state state' : State) (new : list Snapshot) :
  plays coin state new state' ->
  counters_within (num_turn state) (state_a state) ->
  counters_within (num_turn state) (state_b state) ->
  Forall (fun s => view_within (snap_num_turn s + 1) (snap_a s)
                   /\ view_within (snap_num_turn s + 1) (snap_b s)) new.
Proof.
  assert (V : forall st s limit,
             write_to_ui_queue st [] = Ok [s] ->
             counters_within limit (state_a st) ->
             counters_within limit (state_b st) ->
             limit <= num_turn st + 1 ->
             view_within (snap_num_turn s + 1) (snap_a s)
             /\ view_within (snap_num_turn s + 1) (snap_b s)).
  { intros st s limit W (na & da & Hna & Hda & Bna & Bda)
           (nb & db & Hnb & Hdb & Bnb & Bdb) Hl.
    apply snapshot_inv in W.
    destruct W as (na' & nb' & ca & cb & da' & db' & Hna' & Hnb' & _ & _
                   & Hda' & Hdb' & ->).
    unfold view_within. simpl.
    assert (na' = na) by congruence. assert (nb' = nb) by congruence.
    assert (da' = da) by congruence. assert (db' = db) by congruence.
    subst. repeat split; lia. }
  induction 1 as [state oa ob wa wb st1 st2 s L F W
                 | state oa ob wa wb st1 s rest state' L W P IH]; intros Ca Cb.
  - destruct (loop_counters _ _ _ _ _ _ _ _ L Ca Cb) as (Ca1 & Cb1 & Hn & _).
    destruct (finish_frame _ _ _ F) as (Fn & Fa & Fb).
    constructor; [|constructor].
    apply (V st2 s (num_turn state + 1) W).
    + rewrite Fa. exact Ca1.
    + rewrite Fb. exact Cb1.
    + rewrite Fn. lia.
  - destruct (loop_counters _ _ _ _ _ _ _ _ L Ca Cb) as (Ca1 & Cb1 & Hn & Hc).
    specialize (Hc eq_refl). rewrite <- Hc in Ca1, Cb1.
    constructor.
    + apply (V st1 s (num_turn st1) W Ca1 Cb1). lia.
    + apply IH; assumption.
Qed.

(** X19.  Every snapshot of a match shows, for both contestants, an
    ammunition count between 0 and MAX_BULLETS and a dodge count
    between 0 and the number of turns played so far (the reported turn
    number plus one at most). *)
Theorem snapshot_counters_in_range (fuel : nat) (args_a args_b : list str)
    (oa ob : StartObs) (log : LogObs) (obs : nat -> AskObs * AskObs)
    (pipes : nat -> PipeObs * PipeObs) (coin : Key)
    (q : list Snapshot) (state' : State) :
  game fuel args_a args_b oa ob log obs pipes coin = Some (Ok (q, state')) ->
  Forall (fun s =>
            0 <= view_bullets (snap_a s) <= MAX_BULLETS
            /\ 0 <= view_bullets (snap_b s) <= MAX_BULLETS
            /\ 0 <= view_num_dodges (snap_a s) <= snap_num_turn s + 1
            /\ 0 <= view_num_dodges (snap_b s) <= snap_num_turn s + 1) q.
Proof.
  intros H. apply game_plays in H. destruct H as (state & S & P).
  apply setup_ok in S. destruct S as (na & nb & _ & _ & ->).
  assert (R : Forall (fun s => view_within (snap_num_turn s + 1) (snap_a s)
                               /\ view_within (snap_num_turn s + 1)
                                              (snap_b s)) q).
  { apply (plays_range _ _ _ _ P).
    - exists 1, 0. unfold MAX_BULLETS. simpl. repeat split; lia.
    - exists 1, 0. unfold MAX_BULLETS. simpl. repeat split; lia. }
  rewrite Forall_forall in *. intros s Hs.
  destruct (R s Hs) as [[A1 A2] [B1 B2]]. auto.
Qed.

Lemma snapshot_counters_in_range_witness :
  exists q state',
    game 100 [lit "./a"] [lit "./b"] (good_start "alice") (good_start "bob")
    LogOpened
         two_turns delivered KA
    = Some (Ok (q, state'))
    /\ Forall (fun s => 0 <= view_bullets (snap_a s) <= MAX_BULLETS) q.
Proof.
  destruct (game 100 [lit "./a"] [lit "./b"] (good_start "alice")
              (good_start "bob") LogOpened two_turns delivered KA)
    as [[[q state']|e]|] eqn:G; try (vm_compute in G; discriminate G).
  exists q, state'. split; [reflexivity|].
  pose proof (snapshot_counters_in_range 100 [lit "./a"] [lit "./b"]
                (good_start "alice") (good_start "bob")
                LogOpened two_turns delivered KA
                q state' G) as R.
  rewrite Forall_forall in *. intros s Hs. apply (R s Hs).
Defined.

(** ** The text [read] returns *)

Lemma rstrip_last (s : str) :
  rstrip s = [] \/ exists t c, rstrip s = t ++ [c] /\ isspace c = false.
Proof.
  unfold rstrip.
  destruct (lstrip_head (rev s)) as [-> | (c & t & -> & E)]; [auto|].
  right. exists (rev t), c. simpl. auto.
Qed.

(** X20.  Whatever [read] returns is the decoded line without its
    surrounding whitespace: the text is empty or begins and ends with a
    character that is not whitespace, and stripping it again changes
    nothing; so a name or a command never carries the newline of its
    line. *)
Theorem read_returns_stripped_text (self : Contestant) (timeout : Z)
    (o : ReadObs) (s : str) :
  read self timeout o = Ok s ->
  (exists l d, o = QueueLine l /\ decode l = Some d /\ s = strip d)
  /\ strip s = s
  /\ (s = []
      \/ (exists c t, s = c :: t /\ isspace c = false)
         /\ (exists t c, s = t ++ [c] /\ isspace c = false)).
Proof.
  unfold read. destruct (process self); simpl; [|discriminate].
  destruct o as [| |l]; try discriminate.
  destruct (decode l) as [d|] eqn:D; [|discriminate].
  intros H; inv H. split; [eauto|]. split; [apply strip_idem|].
  unfold strip.
  destruct (lstrip_head d) as [-> | (c & t & -> & E)]; [left; reflexivity|].
  right. split.
  - rewrite (rstrip_cons c t E). eauto.
  - destruct (rstrip_last (c :: t)) as [N | R]; [|exact R].
    rewrite (rstrip_cons c t E) in N. discriminate N.
Qed.

Lemma read_returns_stripped_text_witness :
  strip (lit "alice") = lit "alice".
Proof.
  exact (proj1 (proj2 (read_returns_stripped_text (fresh "./a" "alice")
                         STARTUP_TIME
                         (QueueLine (line "  alice ")) (lit "alice")
                         eq_refl))).
Defined.

(** ** Start-up, continued *)



(** ** Deliveries *)



Lemma startup_reports_name_invocation_witness :
  exists before after,
    [lit "./bot --fast took more than 10 seconds to output its name"]
    = [before ++ join (lit " ") [lit "./bot"; lit "--fast"] ++ after].
Proof.
  exact (startup_reports_name_invocation [lit "./bot"; lit "--fast"]
           Spawned QueueEmpty
           (mkContestant [lit "./bot"; lit "--fast"] true
              (Some (mkProcess [])) (Some None) (Some 1) (Some 0) (Some None))
           [lit "./bot --fast took more than 10 seconds to output its name"]
           eq_refl eq_refl).
Defined.

Lemma game_returns_witness :
  exists q state',
    game 100 [lit "./a"] [lit "./b"] (good_start "alice") (good_start "bob")
    LogOpened
         two_turns delivered KA
    = Some (Ok (q, state')).
Proof.
  apply (game_returns [lit "./a"] [lit "./b"] (good_start "alice")
           (good_start "bob") (line "alice") (line "bob")
           (lit "alice" ++ [10%N]) (lit "bob" ++ [10%N]) two_turns
           delivered KA);
    try reflexivity; try discriminate.
  intros [|n]; split; intros l H; inv H; discriminate.
Defined.
